(** * SteamBubbles: the merge / aggregate / filter / rank core of [App.tsx]

    A shallow embedding of the state-handling code of
    [steam-bubbles/src/App.tsx] and the properties of it that the
    design document states.

    Conventions of the embedding:
    - an appid (TypeScript [number]) is a [Z];
    - [MergeMap = Record<number, number>] is a [gmap Z Z];
    - [Set<number>] is a [gset Z];
    - the insertion-ordered [Map<number, GameViz>] built by the
      aggregation effect is an association list in insertion order;
    - [hours] is an exact rational ([Qc]) in [Aggregation], which serves
      for everything that depends on the order of hours only; the module
      [Binary64] has the same effect with [hours] as an IEEE double, for
      what depends on the rounding of the additions;
    - a React state setter is a functional update of a record field. *)

From Stdlib Require Import QArith Qcanon.
From Corelib Require PrimFloat.
From stdpp Require Import gmap strings list fin_maps numbers pretty sorting.

Set Warnings "-register-all,-clear-no-such-hyp".
Local Open Scope Z_scope.

(** ** Merge forest *)

Module Forest.

(** [type MergeMap = Record<number, number>; // fromAppid -> toAppid] *)
Abbreviation MergeMap := (gmap Z Z).

(** The body of the [while] loop of [findMergeRoot], iterated at most
    [fuel] times.  The state of the loop is [cur] and [seen]; [steps]
    counts the iterations done so far.  [None] means that the fuel ran
    out before the loop condition became false.

<<
    while (map[cur] != null && !seen.has(cur)) {
      seen.add(cur);
      cur = map[cur];
    }
    return cur;
>> *)
Fixpoint findMergeRoot_loop (fuel : nat) (map : MergeMap)
    (seen : gset Z) (cur : Z) (steps : nat) : option (Z * nat) :=
  match fuel with
  | O => None
  | S fuel' =>
      match map !! cur with
      | Some next =>
          if decide (cur ∈ seen) then Some (cur, steps)
          else findMergeRoot_loop fuel' map ({[cur]} ∪ seen) next (S steps)
      | None => Some (cur, steps)
      end
  end.

(** Fuel that is always enough: one test of the loop condition per key of
    the map, plus the final one (see [findMergeRoot_loop_total]). *)
Definition findMergeRoot_fuel (map : MergeMap) : nat := S (size map).

(** [findMergeRoot(appid, map)] together with its iteration count. *)
Definition findMergeRoot_run (appid : Z) (map : MergeMap) : option (Z * nat) :=
  findMergeRoot_loop (findMergeRoot_fuel map) map ∅ appid 0%nat.

(** [function findMergeRoot(appid: number, map: MergeMap)].  The run never
    ends for lack of fuel ([findMergeRoot_run_is_Some]), so the second
    branch is never taken. *)
Definition findMergeRoot (appid : Z) (map : MergeMap) : Z :=
  match findMergeRoot_run appid map with
  | Some (cur, _) => cur
  | None => appid
  end.

(** Number of iterations of the loop of [findMergeRoot(appid, map)]. *)
Definition findMergeRoot_steps (appid : Z) (map : MergeMap) : nat :=
  match findMergeRoot_run appid map with
  | Some (_, n) => n
  | None => 0%nat
  end.

(** Following [n] edges from [x]. *)
Fixpoint follow (map : MergeMap) (n : nat) (x : Z) : option Z :=
  match n with
  | O => Some x
  | S n' => match map !! x with
            | Some y => follow map n' y
            | None => None
            end
  end.

(** A forest has no cycle when no identifier comes back to itself. *)
Definition acyclic (map : MergeMap) : Prop :=
  ∀ x n, (0 < n)%nat → follow map n x ≠ Some x.

(** The state of the loop of [findMergeRoot] after [steps] iterations:
    [cur] is the node [steps] edges away from the start, [seen] holds the
    nodes before it, and these are all different. *)
Definition walk_state (map : MergeMap) (start : Z) (seen : gset Z)
    (cur : Z) (steps : nat) : Prop :=
  follow map steps start = Some cur ∧
  (∀ y, y ∈ seen ↔ ∃ i, (i < steps)%nat ∧ follow map i start = Some y) ∧
  (∀ i j, (i < j < steps)%nat → follow map i start ≠ follow map j start).

(** The part of the component state that [addMerge] reads and writes:
    [mergeMap], the two selections of the merge form ([""] is [None]) and
    the [error] banner. *)
Record MergeState := mkMergeState {
  mergeMap : MergeMap;
  mergeFrom : option Z;
  mergeTo : option Z;
  error : string
}.

Definition loop_message : string := "That merge would create a loop.".

(** [function addMerge()]:
<<
    if (mergeFrom === "" || mergeTo === "" || mergeFrom === mergeTo) return;
    const rootTo = findMergeRoot(mergeTo, { ...mergeMap, [mergeFrom]: mergeTo });
    if (rootTo === mergeFrom) { setError("That merge would create a loop."); return; }
    setMergeMap(prev => ({ ...prev, [mergeFrom]: mergeTo }));
    setMergeFrom(""); setMergeTo("");
>> *)
Definition addMerge (st : MergeState) : MergeState :=
  match mergeFrom st, mergeTo st with
  | Some from, Some to =>
      if decide (from = to) then st
      else
        let rootTo := findMergeRoot to (<[from := to]> (mergeMap st)) in
        if decide (rootTo = from) then
          mkMergeState (mergeMap st) (mergeFrom st) (mergeTo st) loop_message
        else
          mkMergeState (<[from := to]> (mergeMap st)) None None (error st)
  | _, _ => st
  end.

(** The first test of [addMerge]: a blank selection or twice the same
    game. *)
Definition invalid_pair (st : MergeState) : Prop :=
  mergeFrom st = None ∨ mergeTo st = None ∨ mergeFrom st = mergeTo st.

(** [function removeMerge(fromAppid: number)] *)
Definition removeMerge (fromAppid : Z) (st : MergeState) : MergeState :=
  mkMergeState (delete fromAppid (mergeMap st)) (mergeFrom st) (mergeTo st) (error st).

(** [function clearMerges()] *)
Definition clearMerges (st : MergeState) : MergeState :=
  mkMergeState ∅ None None (error st).

(** The merge form: [onChange={setMergeFrom}] and [onChange={setMergeTo}]. *)
Definition setMergeFrom (v : option Z) (st : MergeState) : MergeState :=
  mkMergeState (mergeMap st) v (mergeTo st) (error st).
Definition setMergeTo (v : option Z) (st : MergeState) : MergeState :=
  mkMergeState (mergeMap st) (mergeFrom st) v (error st).

(** The state of a fresh session with nothing stored. *)
Definition initial : MergeState := mkMergeState ∅ None None "".

(** Choosing [from] and [to] in the form and pressing "Merge". *)
Definition merge (from to : Z) (st : MergeState) : MergeState :=
  addMerge (setMergeTo (Some to) (setMergeFrom (Some from) st)).

End Forest.

(** ** Aggregation effect *)

Module Aggregation.
Import Forest.

(** An element of [rawGames], as the provider sends it: [playtime_forever]
    may be missing. *)
Record RawGame := mkRawGame {
  raw_appid : Z;
  raw_name : string;
  playtime_forever : option Z
}.

(** [type GameViz] of the chart: what the effect builds for every game. *)
Record GameViz := mkGameViz {
  appid : Z;
  name : string;
  hours : Qc;
  img : string;
  storeUrl : string
}.

(** [{ ...rootGame, hours: h }] and [existing.hours += h]. *)
Definition with_hours (g : GameViz) (h : Qc) : GameViz :=
  mkGameViz (appid g) (name g) h (img g) (storeUrl g).

(** [.filter(g => g && g.appid && g.name)]: a zero appid and an empty name
    are falsy. *)
Definition raw_kept (g : RawGame) : bool :=
  negb (raw_appid g =? 0) && negb (String.eqb (raw_name g) "").

(** The [.map(g => ...)] of the effect.
<<
    const minutes = Number(g.playtime_forever ?? 0);
    const hoursRaw = Number.isFinite(minutes) ? minutes / 60 : 0;
    const hours = Number.isFinite(hoursRaw) && hoursRaw >= 0 ? hoursRaw : 0;
>> *)
Definition to_viz (g : RawGame) : GameViz :=
  let minutes := default 0 (playtime_forever g) in
  let hoursRaw := (Qc_of_Z minutes / Qc_of_Z 60)%Qc in
  let hours := if decide (0 ≤ hoursRaw)%Qc then hoursRaw else 0%Qc in
  mkGameViz (raw_appid g) (raw_name g) hours
    ("https://cdn.akamai.steamstatic.com/steam/apps/" +:+ pretty (raw_appid g) +:+ "/header.jpg")
    ("https://store.steampowered.com/app/" +:+ pretty (raw_appid g) +:+ "/").

(** [const base: GameViz[] = rawGames.filter(...).map(...)] *)
Definition normalize (rawGames : list RawGame) : list GameViz :=
  to_viz <$> filter (λ g, raw_kept g = true) rawGames.

(** [const byId = new Map(base.map(b => [b.appid, b]))]: a later entry
    with the same appid replaces an earlier one. *)
Definition byId (base : list GameViz) : gmap Z GameViz :=
  foldl (λ m b, <[appid b := b]> m) ∅ base.

(** The [Map<number, GameViz>] called [merged], in insertion order. *)
Abbreviation Merged := (list (Z * GameViz)).

(** [merged.get(root)] *)
Fixpoint merged_get (root : Z) (merged : Merged) : option GameViz :=
  match merged with
  | [] => None
  | (k, v) :: rest => if decide (k = root) then Some v else merged_get root rest
  end.

(** [existing.hours += h] on the entry stored under [root]: the object in
    the map is updated in place and keeps its position. *)
Fixpoint merged_add_hours (root : Z) (h : Qc) (merged : Merged) : Merged :=
  match merged with
  | [] => []
  | (k, v) :: rest =>
      if decide (k = root) then (k, with_hours v (hours v + h)%Qc) :: rest
      else (k, v) :: merged_add_hours root h rest
  end.

(** One iteration of [for (const g of base)]:
<<
    const root = findMergeRoot(g.appid, mergeMap);
    const rootGame = byId.get(root) || g;
    const existing = merged.get(root);
    if (existing) existing.hours += g.hours;
    else merged.set(root, { ...rootGame, hours: g.hours });
>> *)
Definition merge_step (mergeMap : MergeMap) (byId : gmap Z GameViz)
    (merged : Merged) (g : GameViz) : Merged :=
  let root := findMergeRoot (appid g) mergeMap in
  let rootGame := default g (byId !! root) in
  match merged_get root merged with
  | Some existing => merged_add_hours root (hours g) merged
  | None => merged ++ [(root, with_hours rootGame (hours g))]
  end.

(** The map [merged] after the loop. *)
Definition merged_of (base : list GameViz) (mergeMap : MergeMap) : Merged :=
  foldl (merge_step mergeMap (byId base)) [] base.

(** [[...merged.values()]], the value given to [setGames]. *)
Definition aggregate (base : list GameViz) (mergeMap : MergeMap) : list GameViz :=
  snd <$> merged_of base mergeMap.

(** The whole effect on the state [games]: nothing is done for an empty
    [rawGames]. *)
Definition aggregation_effect (rawGames : list RawGame) (mergeMap : MergeMap)
    (games : list GameViz) : list GameViz :=
  match rawGames with
  | [] => games
  | _ => aggregate (normalize rawGames) mergeMap
  end.

Definition sum_hours (l : list GameViz) : Qc :=
  foldr (λ g acc, (hours g + acc)%Qc) 0%Qc l.

(** The titles whose root resolves to [r], in the order of [base]. *)
Definition contributors (r : Z) (mergeMap : MergeMap) (base : list GameViz) : list GameViz :=
  filter (λ g, findMergeRoot (appid g) mergeMap = r) base.

(** A list without its repetitions: of equal elements the first is kept. *)
Fixpoint first_occurrences (l : list Z) : list Z :=
  match l with
  | [] => []
  | x :: rest => x :: filter (λ y, y ≠ x) (first_occurrences rest)
  end.

(** What the chart shows of an entry besides its playtime. *)
Definition display_identity (g : GameViz) : string * string * string :=
  (name g, img g, storeUrl g).

(** The design document's policy for a root that is not among the titles,
    written after its words ("prefer the contributor with the smallest
    id"), to be compared with what [merge_step] does. *)
Definition smallest_id_contributor (r : Z) (mergeMap : MergeMap)
    (base : list GameViz) : option GameViz :=
  foldr (λ g best,
           match best with
           | Some b => if decide (appid g <= appid b) then Some g else Some b
           | None => Some g
           end) None (contributors r mergeMap base).

End Aggregation.

(** ** Visibility *)

Module Visibility.
Import Aggregation.

(** [function toggleHide(appid: number)], as the update of [hiddenAppids]. *)
Definition toggleHide (appid : Z) (prev : gset Z) : gset Z :=
  if decide (appid ∈ prev) then prev ∖ {[appid]} else prev ∪ {[appid]}.

(** [function clearHidden()] *)
Definition clearHidden : gset Z := ∅.

(** [games.filter(g => hiddenAppids.has(g.appid))] *)
Definition hiddenGamesList (games : list GameViz) (hiddenAppids : gset Z) : list GameViz :=
  filter (λ g, appid g ∈ hiddenAppids) games.

(** [games.filter(g => !hiddenAppids.has(g.appid))] *)
Definition visibleGames (games : list GameViz) (hiddenAppids : gset Z) : list GameViz :=
  filter (λ g, appid g ∉ hiddenAppids) games.

End Visibility.

(** ** Ranking *)

Module Rank.
Import Aggregation.

(** The comparator [(a, b) => b.hours - a.hours]. *)
Definition by_hours_desc (a b : GameViz) : Qc := (hours b - hours a)%Qc.

(** [Array.prototype.sort(cmp)] is stable: elements that compare equal keep
    their order.  For a comparator that is a weak order the sorted array is
    then determined; it is computed here by insertion from the right, an
    element going before the first one it does not compare greater than. *)
Fixpoint sort_insert {A} (cmp : A → A → Qc) (x : A) (l : list A) : list A :=
  match l with
  | [] => [x]
  | y :: rest =>
      if decide (cmp x y ≤ 0)%Qc then x :: y :: rest
      else y :: sort_insert cmp x rest
  end.

Definition sort {A} (cmp : A → A → Qc) (l : list A) : list A :=
  foldr (sort_insert cmp) [] l.

(** [arr.slice(0, end)] for an integer [end]: a negative [end] counts from
    the end of the array. *)
Definition slice0 {A} (l : list A) (e : Z) : list A :=
  if decide (e < 0) then take (Z.to_nat (Z.of_nat (length l) + e)) l
  else take (Z.to_nat e) l.

(** The memo [filtered]:
<<
    const sorted = [...visibleGames].sort((a, b) => b.hours - a.hours);
    if (showAll) return sorted;
    return sorted.slice(0, Math.max(5, topN));
>> *)
Definition filtered (visibleGames : list GameViz) (topN : Z) (showAll : bool) : list GameViz :=
  let sorted := sort by_hours_desc visibleGames in
  if showAll then sorted else slice0 sorted (Z.max 5 topN).

(** The order the design document asks for: more playtime first, and for
    equal playtime the smaller id first. *)
Definition spec_order (a b : GameViz) : Prop :=
  (hours b < hours a)%Qc ∨ (hours a = hours b ∧ appid a <= appid b).

(** Descending playtime alone. *)
Definition hours_desc (a b : GameViz) : Prop := (hours b ≤ hours a)%Qc.

End Rank.

(** ** Persisted state *)

Module Persistence.

(** A value produced by [JSON.parse]. *)
Inductive json :=
  | JNull
  | JBool (b : bool)
  | JNum (z : Z)
  | JStr (s : string)
  | JArr (items : list json)
  | JObj (fields : list (string * json)).

(** A JavaScript number that is an integer, or [NaN]. *)
Inductive number := NaN | Num (z : Z).

#[global] Instance number_eq_dec : EqDecision number.
Proof. solve_decision. Defined.

#[global] Instance number_countable : Countable number.
Proof.
  refine (inj_countable' (λ n, match n with NaN => None | Num z => Some z end)
                         (λ o, match o with None => NaN | Some z => Num z end) _).
  by intros [].
Defined.

(** What one key of [localStorage] holds when the component mounts:
    reading it may throw, it may be absent, or it holds a text; [parsed] is
    what [JSON.parse] makes of that text, [None] when it throws. *)
Inductive stored :=
  | Blocked
  | Missing
  | Text (raw : string) (parsed : option json).

(** A computation that may throw, and [try { body } catch { handler }]. *)
Inductive result (A : Type) := Ok (a : A) | Throw.
Arguments Ok {A} a.
Arguments Throw {A}.

#[global] Instance result_bind : MBind result := λ A B k r,
  match r with Ok a => k a | Throw => Throw end.

Definition try_catch {A} (body : result A) (handler : A) : A :=
  match body with Ok a => a | Throw => handler end.

(** [localStorage.getItem(key)] *)
Definition getItem (e : stored) : result (option string) :=
  match e with
  | Blocked => Throw
  | Missing => Ok None
  | Text raw _ => Ok (Some raw)
  end.

(** [JSON.parse(raw)] for the text of the entry. *)
Definition JSON_parse (e : stored) : result json :=
  match e with
  | Text _ (Some v) => Ok v
  | _ => Throw
  end.

(** [!raw]: [null] and the empty string are falsy. *)
Definition not_raw (raw : option string) : bool :=
  match raw with
  | None => true
  | Some s => String.eqb s ""
  end.

(** [Array.isArray(v)] *)
Definition isArray (v : json) : bool :=
  match v with JArr _ => true | _ => false end.

(** Truthiness of a parsed value. *)
Definition truthy (v : json) : bool :=
  match v with
  | JNull => false
  | JBool b => b
  | JNum z => negb (z =? 0)
  | JStr s => negb (String.eqb s "")
  | JArr _ | JObj _ => true
  end.

(** [typeof v === "object"] *)
Definition typeof_object (v : json) : bool :=
  match v with JNull | JArr _ | JObj _ => true | _ => false end.

(** The empty object literal. *)
Definition empty_object : json := JObj [].

(** [map[cur]] for an integer [cur] on a parsed value used as a
    [MergeMap]: the own property named by the decimal text of [cur] (for an
    object the last occurrence of a key counts, for an array the index). *)
Definition js_get (map : json) (cur : Z) : option json :=
  match map with
  | JObj fields => snd <$> last (filter (λ kv, kv.1 = pretty cur) fields)
  | JArr items => if decide (0 <= cur) then items !! Z.to_nat cur else None
  | _ => None
  end.

Section Initializers.

(** The built-in conversion [Number(v)]. *)
Variable Number : json → number.

(** The initializer of the state [hiddenAppids]:
<<
    try {
      const raw = localStorage.getItem("hiddenAppids");
      if (!raw) return new Set();
      const arr = JSON.parse(raw);
      if (Array.isArray(arr)) return new Set(arr.map(Number));
      return new Set();
    } catch { return new Set(); }
>> *)
Definition hiddenAppids_init (e : stored) : gset number :=
  try_catch
    (raw ← getItem e;
     if not_raw raw then Ok ∅
     else
       arr ← JSON_parse e;
       match arr with
       | JArr items => Ok (list_to_set (Number <$> items))
       | _ => Ok ∅
       end)
    ∅.

End Initializers.

(** The initializer of the state [mergeMap]:
<<
    try {
      const raw = localStorage.getItem("mergeMap");
      if (!raw) return {};
      const obj = JSON.parse(raw);
      return obj && typeof obj === "object" ? obj : {};
    } catch { return {}; }
>> *)
Definition mergeMap_init (e : stored) : json :=
  try_catch
    (raw ← getItem e;
     if not_raw raw then Ok empty_object
     else
       obj ← JSON_parse e;
       Ok (if truthy obj && typeof_object obj then obj else empty_object))
    empty_object.

(** [null], booleans, numbers and strings: the parsed values that are
    neither an object nor an array. *)
Definition is_primitive (v : json) : bool :=
  match v with JArr _ | JObj _ => false | _ => true end.

(** Entries from which nothing is parsed: the store cannot be read, the
    key is absent, the text is empty, or the text is not JSON. *)
Definition unreadable (e : stored) : Prop :=
  match e with
  | Blocked | Missing | Text _ None => True
  | Text raw (Some _) => raw = ""
  end.

(** Entries that parse to something that is not an array. *)
Definition parsed_non_array (e : stored) : Prop :=
  match e with
  | Text _ (Some v) => isArray v = false
  | _ => False
  end.

(** Entries that parse to a primitive value. *)
Definition parsed_primitive (e : stored) : Prop :=
  match e with
  | Text _ (Some v) => is_primitive v = true
  | _ => False
  end.

(** The shape the design document gives to the stored merge edges: a JSON
    object (keys stringified integers, values integers). *)
Definition edges_shape (v : json) : Prop :=
  ∃ fields, v = JObj fields ∧
    Forall (λ kv, ∃ k z : Z, kv.1 = pretty k ∧ kv.2 = JNum z) fields.

(** The shape of the stored hidden set: an array of integers. *)
Definition hidden_shape (v : json) : Prop :=
  ∃ items, v = JArr items ∧ Forall (λ x, ∃ z, x = JNum z) items.

End Persistence.

(** ** The searchable dropdown of the merge form *)

Module Search.
Import Aggregation.

(** [s.includes(q)]: [q] occurs in [s] as a contiguous piece. *)
Fixpoint includes (s q : string) : bool :=
  String.prefix q s ||
  match s with
  | EmptyString => false
  | String _ rest => includes rest q
  end.

Section SearchSelect.

(** The built-ins [String.prototype.trim], [toLowerCase] and
    [localeCompare] (a negative, zero or positive number). *)
Variable trim : string → string.
Variable toLowerCase : string → string.
Variable localeCompare : string → string → Qc.

(** The memo [filtered] of [SearchSelect]; [excludeIds] is [None] when the
    property is not given.
<<
    const q = query.trim().toLowerCase();
    let list = items;
    if (excludeIds?.size) list = list.filter(i => !excludeIds.has(i.appid));
    if (!q) return list.slice(0, 60);
    return list.filter(i => i.name.toLowerCase().includes(q)).slice(0, 60);
>> *)
Definition filtered (items : list GameViz) (query : string)
    (excludeIds : option (gset Z)) : list GameViz :=
  let q := toLowerCase (trim query) in
  let list :=
    match excludeIds with
    | Some ids =>
        if decide (size ids = 0%nat) then items
        else filter (λ i, appid i ∉ ids) items
    | None => items
    end in
  if String.eqb q "" then Rank.slice0 list 60
  else Rank.slice0
         (filter (λ i, includes (toLowerCase (name i)) q = true) list) 60.

(** [[...unmergedGames].sort((a, b) => a.name.localeCompare(b.name))] *)
Definition allForMerge (unmergedGames : list GameViz) : list GameViz :=
  Rank.sort (λ a b, localeCompare (name a) (name b)) unmergedGames.

(** The options of the "Into" dropdown:
    [items={allForMerge}] and
    [excludeIds={mergeFrom === "" ? undefined : new Set([mergeFrom])}]. *)
Definition into_options (unmergedGames : list GameViz) (query : string)
    (mergeFrom : option Z) : list GameViz :=
  filtered (allForMerge unmergedGames) query
           (match mergeFrom with
            | None => None
            | Some from => Some {[from]}
            end).

End SearchSelect.

End Search.

(** ** Loading the games *)

Module Loader.
Import Aggregation.

(** What a request to [/api/owned-games] comes back with: the promise of
    [fetch] or of [r.json()] rejects, or there is a body, of which the code
    reads [r.ok], [data?.error] and [data?.response?.games]. *)
Inductive response :=
  | Rejected
  | Reply (ok : bool) (error_field : option string)
          (games_field : option (list RawGame)).

(** The states the two loaders write. *)
Record LoadState := mkLoadState {
  error : string;
  rawGames : list RawGame;
  games : list GameViz;
  manualLoading : bool
}.

Definition no_games_message : string :=
  "No games returned. Your Steam 'Game Details' privacy must be Public.".
Definition no_games_for_id_message : string :=
  "No games returned. That user's Steam 'Game Details' privacy must be Public.".
Definition failed_for_id_message : string :=
  "Failed to load games for that ID.".
Definition failed_message : string := "Failed to load games.".

(** [async function loadMyGames()], from the call to its last effect on
    the state:
<<
    setError(""); setRawGames([]); setGames([]);
    const r = await fetch(...); const data = await r.json();
    const list = data?.response?.games ?? [];
    if (!list.length) { setError("No games returned. ..."); return; }
    setRawGames(list);
>> *)
Definition loadMyGames (resp : response) (st : LoadState) : LoadState :=
  match resp with
  | Rejected => mkLoadState "" [] [] (manualLoading st)
  | Reply _ _ games_field =>
      match default [] games_field with
      | [] => mkLoadState no_games_message [] [] (manualLoading st)
      | list => mkLoadState "" list [] (manualLoading st)
      end
  end.

Section ById.

(** The built-in [String.prototype.trim]. *)
Variable trim : string → string.

(** [async function loadGamesById()]:
<<
    if (!steamIdInput.trim()) return;
    setManualLoading(true); setError(""); setRawGames([]); setGames([]);
    try {
      const r = await fetch(...); const data = await r.json();
      if (!r.ok) { setError(data?.error || "Failed to load games for that ID."); return; }
      const list = data?.response?.games ?? [];
      if (!list.length) { setError("No games returned. ..."); return; }
      setRawGames(list);
      try { localStorage.setItem("manualSteamId", steamIdInput.trim()); } catch {}
    } catch { setError("Failed to load games."); }
    finally { setManualLoading(false); }
>> *)
Definition loadGamesById (steamIdInput : string) (resp : response)
    (st : LoadState) : LoadState :=
  if String.eqb (trim steamIdInput) "" then st
  else
    match resp with
    | Rejected => mkLoadState failed_message [] [] false
    | Reply ok error_field games_field =>
        if negb ok then
          mkLoadState
            (match error_field with
             | Some e => if String.eqb e "" then failed_for_id_message else e
             | None => failed_for_id_message
             end) [] [] false
        else
          match default [] games_field with
          | [] => mkLoadState no_games_for_id_message [] [] false
          | list => mkLoadState "" list [] false
          end
    end.

End ById.

(** The aggregation effect, which runs when [rawGames] or [mergeMap] has
    changed. *)
Definition run_effect (mergeMap : Forest.MergeMap) (st : LoadState) : LoadState :=
  mkLoadState (error st) (rawGames st)
              (aggregation_effect (rawGames st) mergeMap (games st))
              (manualLoading st).

End Loader.

(** ** The backend route [/api/appdetails-batch] *)

Module Backend.

(** The [data] of one answer of the store, as far as it is read. *)
Record StoreData := mkStoreData {
  data_name : string;
  data_genres : option (list string);
  data_header_image : string
}.

(** One value of the object [out]. *)
Record AppDetails := mkAppDetails {
  name : string;
  genres : list string;
  header_image : string
}.

Inductive reply :=
  | BadRequest
  | Success (out : gmap Z AppDetails).

Section Batch.

(** What the store answers for an appid: [None] when the request fails or
    when [j?.[appid]?.data] is missing. *)
Variable store : Z → option StoreData.

(** The body of [limited.map(async (appid) => ...)] for one appid. *)
Definition add_details (appid : Z) (out : gmap Z AppDetails) : gmap Z AppDetails :=
  match store appid with
  | Some data =>
      <[appid := mkAppDetails (data_name data)
                              (default [] (data_genres data))
                              (data_header_image data)]> out
  | None => out
  end.

(** The handler of [POST /api/appdetails-batch]; [appids] is [None] when
    [req.body?.appids] is not an array.
<<
    if (!Array.isArray(appids) || appids.length === 0)
      return res.status(400).json({ error: "appids must be a non-empty array" });
    const out = {};
    const limited = appids.slice(0, 250);
    await Promise.all(limited.map(async (appid) => { ... out[appid] = {...} }));
    res.json(out);
>> *)
Definition appdetails_batch (appids : option (list Z)) : reply :=
  match appids with
  | None | Some [] => BadRequest
  | Some appids =>
      let limited := Rank.slice0 appids 250 in
      Success (foldr add_details ∅ limited)
  end.

End Batch.

End Backend.

(** ** The aggregation effect on doubles *)

Module Binary64.
Import Forest.
Import PrimFloat.

(** The numbers of the program are IEEE 754 binary64 values; the
    operations below are the kernel's, which round as the program's do. *)
Abbreviation float := PrimFloat.float.

(** An element of [rawGames]: [playtime_forever] is a JSON number or
    missing. *)
Record RawGame := mkRawGame {
  raw_appid : Z;
  raw_name : string;
  playtime_forever : option float
}.

(** [type GameViz], with [hours] a double. *)
Record GameViz := mkGameViz {
  appid : Z;
  name : string;
  hours : float;
  img : string;
  storeUrl : string
}.

(** [{ ...rootGame, hours: h }] and [existing.hours += h]. *)
Definition with_hours (g : GameViz) (h : float) : GameViz :=
  mkGameViz (appid g) (name g) h (img g) (storeUrl g).

(** [.filter(g => g && g.appid && g.name)] *)
Definition raw_kept (g : RawGame) : bool :=
  negb (raw_appid g =? 0) && negb (String.eqb (raw_name g) "").

(** The [.map(g => ...)] of the effect.
<<
    const minutes = Number(g.playtime_forever ?? 0);
    const hoursRaw = Number.isFinite(minutes) ? minutes / 60 : 0;
    const hours = Number.isFinite(hoursRaw) && hoursRaw >= 0 ? hoursRaw : 0;
>> *)
Definition to_viz (g : RawGame) : GameViz :=
  let minutes := default PrimFloat.zero (playtime_forever g) in
  let hoursRaw :=
    if PrimFloat.is_finite minutes then PrimFloat.div minutes 60%float
    else PrimFloat.zero in
  let hours :=
    if PrimFloat.is_finite hoursRaw && PrimFloat.leb PrimFloat.zero hoursRaw
    then hoursRaw else PrimFloat.zero in
  mkGameViz (raw_appid g) (raw_name g) hours
    ("https://cdn.akamai.steamstatic.com/steam/apps/" +:+ pretty (raw_appid g) +:+ "/header.jpg")
    ("https://store.steampowered.com/app/" +:+ pretty (raw_appid g) +:+ "/").

(** [const base: GameViz[] = rawGames.filter(...).map(...)] *)
Definition normalize (rawGames : list RawGame) : list GameViz :=
  to_viz <$> filter (λ g, raw_kept g = true) rawGames.

(** [const byId = new Map(base.map(b => [b.appid, b]))] *)
Definition byId (base : list GameViz) : gmap Z GameViz :=
  foldl (λ m b, <[appid b := b]> m) ∅ base.

(** The [Map<number, GameViz>] called [merged], in insertion order. *)
Abbreviation Merged := (list (Z * GameViz)).

(** [merged.get(root)] *)
Fixpoint merged_get (root : Z) (merged : Merged) : option GameViz :=
  match merged with
  | [] => None
  | (k, v) :: rest => if decide (k = root) then Some v else merged_get root rest
  end.

(** [existing.hours += h]: one rounded addition, on the entry stored under
    [root]. *)
Fixpoint merged_add_hours (root : Z) (h : float) (merged : Merged) : Merged :=
  match merged with
  | [] => []
  | (k, v) :: rest =>
      if decide (k = root)
      then (k, with_hours v (PrimFloat.add (hours v) h)) :: rest
      else (k, v) :: merged_add_hours root h rest
  end.

(** One iteration of [for (const g of base)]:
<<
    const root = findMergeRoot(g.appid, mergeMap);
    const rootGame = byId.get(root) || g;
    const existing = merged.get(root);
    if (existing) existing.hours += g.hours;
    else merged.set(root, { ...rootGame, hours: g.hours });
>> *)
Definition merge_step (mergeMap : MergeMap) (byId : gmap Z GameViz)
    (merged : Merged) (g : GameViz) : Merged :=
  let root := findMergeRoot (appid g) mergeMap in
  let rootGame := default g (byId !! root) in
  match merged_get root merged with
  | Some existing => merged_add_hours root (hours g) merged
  | None => merged ++ [(root, with_hours rootGame (hours g))]
  end.

(** The map [merged] after the loop. *)
Definition merged_of (base : list GameViz) (mergeMap : MergeMap) : Merged :=
  foldl (merge_step mergeMap (byId base)) [] base.

(** [[...merged.values()]], the value given to [setGames]. *)
Definition aggregate (base : list GameViz) (mergeMap : MergeMap) : list GameViz :=
  snd <$> merged_of base mergeMap.

(** The titles whose root resolves to [r], in the order of [base]. *)
Definition contributors (r : Z) (mergeMap : MergeMap) (base : list GameViz) : list GameViz :=
  filter (λ g, findMergeRoot (appid g) mergeMap = r) base.

(** Adding the hours of [rest] to [h], one title after the other. *)
Definition add_hours (h : float) (rest : list GameViz) : float :=
  foldl (λ acc g, PrimFloat.add acc (hours g)) h rest.

(** The total of a list, added up from zero in the order of the list, as
    [list.reduce((s, g) => s + g.hours, 0)] does. *)
Definition sum_hours (l : list GameViz) : float :=
  add_hours PrimFloat.zero l.

(** The same total added up from the right. *)
Definition sum_hours_right (l : list GameViz) : float :=
  foldr (λ g acc, PrimFloat.add (hours g) acc) PrimFloat.zero l.

End Binary64.

(** * Properties *)

(** ** The loop of [findMergeRoot] *)

Section FindMergeRoot.
Import Forest.

Implicit Types (map : MergeMap) (seen : gset Z) (cur : Z).

(** The guard: a node with an outgoing edge that is already in [seen]
    ends the loop and is returned. *)
Lemma findMergeRoot_loop_guard fuel map seen cur steps next :
  map !! cur = Some next → cur ∈ seen →
  findMergeRoot_loop (S fuel) map seen cur steps = Some (cur, steps).
Proof. intros Hnext Hseen. simpl. rewrite Hnext. by rewrite decide_True. Qed.

(** A node without outgoing edge ends the loop and is returned. *)
Lemma findMergeRoot_loop_root fuel map seen cur steps :
  map !! cur = None →
  findMergeRoot_loop (S fuel) map seen cur steps = Some (cur, steps).
Proof. intros Hnone. simpl. by rewrite Hnone. Qed.

(** Every iteration puts a new key of the map into [seen], so the loop
    ends before the keys run out. *)
Lemma findMergeRoot_loop_total fuel map seen cur steps :
  (size (dom map ∖ seen) < fuel)%nat →
  is_Some (findMergeRoot_loop fuel map seen cur steps).
Proof.
  revert seen cur steps.
  induction fuel as [|fuel IH]; intros seen cur steps Hfuel; [lia|].
  simpl. destruct (map !! cur) as [next|] eqn:Hcur; [|by eexists].
  destruct (decide (cur ∈ seen)) as [|Hfresh]; [by eexists|].
  apply IH.
  assert (dom map ∖ ({[cur]} ∪ seen) ⊂ dom map ∖ seen) as Hlt.
  { split; [set_solver|].
    intros Hsub. assert (cur ∈ dom map) by (apply elem_of_dom; eauto).
    set_solver. }
  apply subset_size in Hlt. lia.
Qed.

(** Invariant rule for the loop: what holds at entry and is kept by the
    body holds at exit, where the loop condition is false. *)
Lemma findMergeRoot_loop_inv (I : gset Z → Z → nat → Prop) map :
  (∀ seen cur steps next,
      I seen cur steps → map !! cur = Some next → cur ∉ seen →
      I ({[cur]} ∪ seen) next (S steps)) →
  ∀ fuel seen cur steps r n,
    I seen cur steps →
    findMergeRoot_loop fuel map seen cur steps = Some (r, n) →
    ∃ seen', I seen' r n ∧ (map !! r = None ∨ r ∈ seen').
Proof.
  intros Hbody fuel.
  induction fuel as [|fuel IH]; intros seen cur steps r n HI Hrun; [done|].
  simpl in Hrun. destruct (map !! cur) as [next|] eqn:Hcur.
  - destruct (decide (cur ∈ seen)) as [Hin|Hfresh].
    + inversion Hrun; subst. eauto.
    + eapply IH; [|exact Hrun]. eauto.
  - inversion Hrun; subst. exists seen. split; [done|]. by left.
Qed.

Lemma findMergeRoot_run_is_Some appid map :
  is_Some (findMergeRoot_run appid map).
Proof.
  apply findMergeRoot_loop_total. unfold findMergeRoot_fuel.
  rewrite difference_empty_L, size_dom. lia.
Qed.

Lemma findMergeRoot_run_spec appid map :
  findMergeRoot_run appid map
  = Some (findMergeRoot appid map, findMergeRoot_steps appid map).
Proof.
  unfold findMergeRoot, findMergeRoot_steps.
  destruct (findMergeRoot_run_is_Some appid map) as [[r n] ->]. done.
Qed.

(** The loop of [findMergeRoot] does at most one iteration per key of the
    map, whatever the map. *)
Lemma findMergeRoot_steps_bound appid map :
  (findMergeRoot_steps appid map ≤ size map)%nat.
Proof.
  pose proof (findMergeRoot_run_spec appid map) as Hrun.
  eapply (findMergeRoot_loop_inv
            (λ seen _ steps, seen ⊆ dom map ∧ size seen = steps)) in Hrun.
  - destruct Hrun as (seen' & [Hsub <-] & _).
    rewrite <-size_dom. by apply subseteq_size.
  - intros seen cur steps next [Hsub Hsize] Hcur Hfresh. split.
    + assert (cur ∈ dom map) by (apply elem_of_dom; eauto). set_solver.
    + rewrite size_union by set_solver. rewrite size_singleton. lia.
  - split; [set_solver|]. by rewrite size_empty.
Qed.

(** The identifier returned has no outgoing edge, or it was met twice. *)
Lemma findMergeRoot_exit appid map :
  map !! findMergeRoot appid map = None ∨
  ∃ n, (0 < n)%nat ∧
       follow map n (findMergeRoot appid map) = Some (findMergeRoot appid map).
Proof.
  pose proof (findMergeRoot_run_spec appid map) as Hrun.
  eapply (findMergeRoot_loop_inv
            (λ seen cur _, ∀ y, y ∈ seen →
               ∃ n, (0 < n)%nat ∧ follow map n y = Some cur)) in Hrun.
  - destruct Hrun as (seen' & Hpath & [Hnone|Hin]); [by left|right]. eauto.
  - intros seen cur steps next Hpath Hcur Hfresh y Hy.
    apply elem_of_union in Hy as [Hy|Hy].
    + apply elem_of_singleton in Hy as ->. exists 1%nat. split; [lia|].
      simpl. by rewrite Hcur.
    + destruct (Hpath y Hy) as (n & Hn & Hfollow). exists (S n). split; [lia|].
      clear Hn Hpath Hy. revert y Hfollow.
      induction n as [|n IH]; intros y Hfollow; simpl in *.
      * inversion Hfollow; subst. by rewrite Hcur.
      * destruct (map !! y) as [z|]; [|done]. by apply IH.
  - set_solver.
Qed.

(** In a forest without cycle, [findMergeRoot] returns an identifier with
    no outgoing edge. *)
Lemma findMergeRoot_acyclic appid map :
  acyclic map → map !! findMergeRoot appid map = None.
Proof.
  intros Hacyc. destruct (findMergeRoot_exit appid map) as [|(n & Hn & Hloop)]; [done|].
  destruct (Hacyc _ _ Hn Hloop).
Qed.

(** The test [rootTo === mergeFrom] of [addMerge] is never true for a
    valid pair: on the forest with the candidate edge, the walk from [to]
    ends either at a node without outgoing edge, which [from] is not, or at
    the first node met twice, which is [to] as soon as [from] is reached. *)
Lemma findMergeRoot_candidate_ne_from map (from to : Z) :
  from ≠ to → findMergeRoot to (<[from := to]> map) ≠ from.
Proof.
  intros Hne Heq.
  pose proof (findMergeRoot_run_spec to (<[from := to]> map)) as Hrun.
  rewrite Heq in Hrun.
  eapply (findMergeRoot_loop_inv
            (λ seen cur _, (cur = to ∨ to ∈ seen) ∧
                           (from ∈ seen → cur = to ∧ to ∈ seen))) in Hrun.
  - destruct Hrun as (seen' & [_ Hfrom] & [Hnone|Hin]).
    + by rewrite lookup_insert_eq in Hnone.
    + destruct (Hfrom Hin) as [? _]. done.
  - intros seen cur steps next [Hto Hfrom] Hcur Hfresh. split.
    + right. set_solver.
    + intros Hin. apply elem_of_union in Hin as [Hin|Hin].
      * apply elem_of_singleton in Hin as <-.
        rewrite lookup_insert_eq in Hcur. inversion Hcur; subst. set_solver.
      * destruct (Hfrom Hin) as [-> ?]. done.
  - split; [by left|set_solver].
Qed.

End FindMergeRoot.

(** ** [addMerge] *)

Section AddMerge.
Import Forest.

(** For two different games [addMerge] always takes its last branch: the
    edge is stored and the form is reset. *)
Lemma addMerge_valid_commits st (from to : Z) :
  mergeFrom st = Some from → mergeTo st = Some to → from ≠ to →
  addMerge st = mkMergeState (<[from := to]> (mergeMap st)) None None (error st).
Proof.
  intros Hfrom Hto Hne. unfold addMerge. rewrite Hfrom, Hto.
  rewrite decide_False by done.
  rewrite decide_False by (by apply findMergeRoot_candidate_ne_from).
  done.
Qed.

Lemma acyclic_scenario2 : acyclic {[2 := 1; 1 := 3]}.
Proof.
  intros x n Hn Hloop.
  destruct n as [|n]; [lia|]. simpl in Hloop.
  destruct (decide (x = 2)) as [->|Hx2]; simplify_map_eq.
  - destruct n as [|n]; simplify_map_eq.
    destruct n as [|n]; simplify_map_eq.
  - destruct (decide (x = 1)) as [->|Hx1]; simplify_map_eq.
    destruct n as [|n]; simplify_map_eq.
Qed.

(** C1 (the code departs from it).  Scenario 2 of the design document:
    with the edges 2→1 and 1→3, merging 3 into 2 closes the cycle
    3→2→1→3.  [addMerge] does not reject it: the walk from 2 on the
    candidate forest returns 2, not 3, so the edge is stored, no message
    is set, and the forest that had no cycle has one. *)
Theorem addMerge_scenario2_commits_cycle :
  let before := mkMergeState {[2 := 1; 1 := 3]} (Some 3) (Some 2) "" in
  acyclic (mergeMap before) ∧
  findMergeRoot 2 (<[3 := 2]> (mergeMap before)) = 2 ∧
  addMerge before = mkMergeState {[2 := 1; 1 := 3; 3 := 2]} None None "" ∧
  mergeMap (addMerge before) ≠ mergeMap before ∧
  error (addMerge before) ≠ loop_message ∧
  ¬ acyclic (mergeMap (addMerge before)).
Proof.
  split; [exact acyclic_scenario2|].
  split; [by vm_compute|].
  split; [by vm_compute|].
  split; [|split].
  - intros Heq. apply (f_equal (λ m : MergeMap, m !! 3)) in Heq.
    vm_compute in Heq. discriminate.
  - by vm_compute.
  - intros Hacyc. apply (Hacyc 3 3%nat); [lia|]. by vm_compute.
Qed.

(** C3 (the code departs from it).  Two merges that both succeed, 1 into 2
    and then 2 into 1, leave a forest on which [findMergeRoot] returns an
    identifier that has an outgoing edge. *)
Theorem findMergeRoot_after_merges_not_root :
  let st := merge 2 1 (merge 1 2 initial) in
  mergeMap st = {[1 := 2; 2 := 1]} ∧
  error st = "" ∧
  findMergeRoot 1 (mergeMap st) = 1 ∧
  mergeMap st !! findMergeRoot 1 (mergeMap st) = Some 2.
Proof. repeat split; by vm_compute. Qed.

(** C7 (as amended).  When a selection is blank or both selections are
    the same game, [addMerge] returns at once: the forest, the form and
    the error banner are all as before, and nothing reports a rejection. *)
Theorem addMerge_invalid_noop st :
  invalid_pair st → addMerge st = st.
Proof.
  intros [Hfrom|[Hto|Hsame]]; unfold addMerge.
  - by rewrite Hfrom.
  - rewrite Hto. by destruct (mergeFrom st).
  - rewrite Hsame. destruct (mergeTo st) as [to|]; [|done].
    by rewrite decide_True.
Qed.

Lemma addMerge_invalid_noop_witness :
  let st := mkMergeState {[2 := 1]} (Some 7) (Some 7) "" in
  invalid_pair st ∧ addMerge st = st.
Proof.
  split.
  - right. right. reflexivity.
  - apply (addMerge_invalid_noop (mkMergeState {[2 := 1]} (Some 7) (Some 7) "")).
    right. right. reflexivity.
Defined.

(** C7 as stated fails: for a self-edge the forest is unchanged, but the
    call changes nothing at all, so the caller cannot tell that an edit
    was rejected. *)
Lemma addMerge_self_edge_is_silent :
  let st := mkMergeState ∅ (Some 1) (Some 1) "" in
  ¬ (mergeMap (addMerge st) = mergeMap st ∧ addMerge st ≠ st).
Proof. intros st [_ Hsurfaced]. apply Hsurfaced. by vm_compute. Qed.

End AddMerge.

(** ** The aggregation effect *)

Section Aggregate.
Import Forest Aggregation.

Implicit Types (merged : Merged) (g : GameViz) (base : list GameViz).

Lemma sum_hours_nil : sum_hours [] = 0%Qc.
Proof. reflexivity. Qed.

Lemma sum_hours_cons g (l : list GameViz) :
  sum_hours (g :: l) = (hours g + sum_hours l)%Qc.
Proof. reflexivity. Qed.

Lemma sum_hours_app (l1 l2 : list GameViz) :
  sum_hours (l1 ++ l2) = (sum_hours l1 + sum_hours l2)%Qc.
Proof.
  induction l1 as [|g l1 IH].
  - by rewrite app_nil_l, sum_hours_nil, Qcplus_0_l.
  - rewrite <-app_comm_cons, !sum_hours_cons, IH. ring.
Qed.

Lemma merged_get_None_keys root merged :
  merged_get root merged = None ↔ root ∉ merged.*1.
Proof.
  induction merged as [|[k v] merged IH]; simpl.
  - split; [set_solver|done].
  - destruct (decide (k = root)) as [->|Hne].
    + split; [done|]. intros Hnot. destruct Hnot. by left.
    + rewrite IH. set_solver.
Qed.

Lemma merged_get_app root merged merged' :
  merged_get root (merged ++ merged')
  = match merged_get root merged with
    | Some v => Some v
    | None => merged_get root merged'
    end.
Proof.
  induction merged as [|[k v] merged IH]; simpl; [done|].
  by destruct (decide (k = root)).
Qed.

Lemma merged_add_hours_keys root h merged :
  (merged_add_hours root h merged).*1 = merged.*1.
Proof.
  induction merged as [|[k v] merged IH]; csimpl; [done|].
  destruct (decide (k = root)); csimpl; [done|]. by rewrite IH.
Qed.

Lemma merged_get_add_hours root h k merged :
  merged_get k (merged_add_hours root h merged)
  = if decide (k = root)
    then (λ v, with_hours v (hours v + h)%Qc) <$> merged_get k merged
    else merged_get k merged.
Proof.
  induction merged as [|[k' v] merged IH]; simpl.
  - by destruct (decide (k = root)).
  - destruct (decide (k' = root)) as [->|Hne]; simpl.
    + destruct (decide (root = k)) as [<-|Hk].
      * by rewrite decide_True.
      * by rewrite decide_False.
    + destruct (decide (k' = k)) as [->|Hk]; [|done].
      by rewrite decide_False.
Qed.

Lemma sum_hours_add_hours root h merged :
  is_Some (merged_get root merged) →
  sum_hours (merged_add_hours root h merged).*2
  = (sum_hours merged.*2 + h)%Qc.
Proof.
  induction merged as [|[k v] merged IH]; intros [e He]; [done|].
  cbn [merged_get merged_add_hours] in He |- *.
  destruct (decide (k = root)) as [->|Hne].
  - rewrite !fmap_cons, !sum_hours_cons. cbn [snd hours with_hours]. ring.
  - rewrite !fmap_cons, !sum_hours_cons, IH by eauto. cbn [snd]. ring.
Qed.

(** One iteration of the loop adds the hours of its title to the total. *)
Lemma merge_step_sum mergeMap ids merged g :
  sum_hours (merge_step mergeMap ids merged g).*2
  = (sum_hours merged.*2 + hours g)%Qc.
Proof.
  unfold merge_step.
  destruct (merged_get _ merged) as [existing|] eqn:Hget.
  - apply sum_hours_add_hours. eauto.
  - rewrite fmap_app, sum_hours_app, fmap_cons, fmap_nil.
    rewrite sum_hours_cons, sum_hours_nil. cbn [snd hours with_hours]. ring.
Qed.

Lemma merge_loop_sum mergeMap ids base merged :
  sum_hours (foldl (merge_step mergeMap ids) merged base).*2
  = (sum_hours merged.*2 + sum_hours base)%Qc.
Proof.
  revert merged. induction base as [|g base IH]; intros merged.
  - rewrite sum_hours_nil. cbn [foldl]. ring.
  - cbn [foldl]. rewrite IH, merge_step_sum, sum_hours_cons. ring.
Qed.

(** With hours added exactly, the playtime of the aggregated entries adds
    up to the playtime of the titles, for every list of titles and every
    forest (with or without a cycle). *)
Theorem aggregate_lossless base (mergeMap : MergeMap) :
  sum_hours (aggregate base mergeMap) = sum_hours base.
Proof.
  unfold aggregate, merged_of. rewrite merge_loop_sum.
  rewrite fmap_nil, sum_hours_nil. ring.
Qed.

(** Scenario 1 of the design document: A = 1 (600 min), B = 2 (300 min),
    C = 3 (120 min) and B merged into A give A 15 hours and C 2 hours. *)
Example aggregate_scenario1 :
  map (λ g, (appid g, this (hours g)))
      (aggregate (normalize [mkRawGame 1 "A" (Some 600);
                             mkRawGame 2 "B" (Some 300);
                             mkRawGame 3 "C" (Some 120)]) {[2 := 1]})
  = [(1, (15 # 1)%Q); (3, (2 # 1)%Q)].
Proof. by vm_compute. Qed.

(** *** What the loop leaves in [merged] *)

Lemma contributors_snoc r (mergeMap : MergeMap) base g :
  contributors r mergeMap (base ++ [g])
  = contributors r mergeMap base
    ++ (if decide (findMergeRoot (appid g) mergeMap = r) then [g] else []).
Proof.
  unfold contributors. rewrite filter_app. reflexivity.
Qed.

(** After the loop has run over [base], the entry stored under a key is
    built from the first title resolving to that key ([ids] standing for
    [byId]) and carries the hours of all the titles resolving to it. *)
Lemma merge_loop_get (mergeMap : MergeMap) ids base k :
  merged_get k (foldl (merge_step mergeMap ids) [] base)
  = (λ first, with_hours (default first (ids !! k))
                         (sum_hours (contributors k mergeMap base)))
    <$> head (contributors k mergeMap base).
Proof.
  revert k. induction base as [|g base IH] using rev_ind; intros k; [done|].
  rewrite foldl_app. cbn [foldl]. rewrite contributors_snoc.
  set (M := foldl (merge_step mergeMap ids) [] base) in *.
  unfold merge_step.
  destruct (merged_get (findMergeRoot (appid g) mergeMap) M)
    as [existing|] eqn:Hget.
  - rewrite merged_get_add_hours.
    destruct (decide (k = findMergeRoot (appid g) mergeMap)) as [->|Hk].
    + rewrite decide_True by done. rewrite IH in Hget |- *.
      destruct (contributors _ mergeMap base) as [|first rest] eqn:Hc; [done|].
      rewrite sum_hours_app, (sum_hours_cons g []), sum_hours_nil, Qcplus_0_r.
      reflexivity.
    + rewrite decide_False by done. by rewrite app_nil_r.
  - rewrite merged_get_app. cbn [merged_get].
    destruct (decide (findMergeRoot (appid g) mergeMap = k)) as [<-|Hk].
    + rewrite Hget. rewrite IH in Hget.
      destruct (contributors _ mergeMap base) as [|first rest] eqn:Hc; [|done].
      rewrite app_nil_l. cbn [head fmap option_fmap option_map].
      by rewrite sum_hours_cons, sum_hours_nil, Qcplus_0_r.
    + rewrite app_nil_r, <-IH. by destruct (merged_get k M).
Qed.

Lemma merge_loop_NoDup (mergeMap : MergeMap) ids base merged :
  NoDup merged.*1 →
  NoDup (foldl (merge_step mergeMap ids) merged base).*1.
Proof.
  revert merged. induction base as [|g base IH]; intros merged Hnd; [done|].
  cbn [foldl]. apply IH. unfold merge_step.
  destruct (merged_get _ merged) as [existing|] eqn:Hget.
  - by rewrite merged_add_hours_keys.
  - rewrite fmap_app. apply NoDup_app. split; [done|].
    apply merged_get_None_keys in Hget.
    split; [|apply NoDup_singleton].
    intros x Hx Hx'. apply list_elem_of_singleton in Hx'. by subst.
Qed.

Lemma merged_get_elem_of k v merged :
  NoDup merged.*1 → (k, v) ∈ merged → merged_get k merged = Some v.
Proof.
  induction merged as [|[k' v'] merged IH]; intros Hnd Hin.
  - by apply not_elem_of_nil in Hin.
  - rewrite fmap_cons in Hnd. apply NoDup_cons in Hnd as [Hk' Hnd].
    cbn [merged_get]. apply elem_of_cons in Hin as [Heq|Hin].
    + inversion Heq; subst. by rewrite decide_True.
    + rewrite decide_False; [by apply IH|].
      intros ->. apply Hk'. apply list_elem_of_fmap. by exists (k, v).
Qed.

(** *** [byId] *)

Lemma byId_loop_lookup (acc : gmap Z GameViz) base r t :
  foldl (λ m b, <[appid b := b]> m) acc base !! r = Some t →
  (t ∈ base ∧ appid t = r) ∨ acc !! r = Some t.
Proof.
  revert acc. induction base as [|g base IH]; intros acc Hl; [by right|].
  cbn [foldl] in Hl. apply IH in Hl as [[Hin Hid]|Hl].
  - left. split; [by right|done].
  - destruct (decide (appid g = r)) as [Hr|Hr].
    + rewrite <-Hr, lookup_insert_eq in Hl. inversion Hl; subst.
      left. split; [by left|done].
    + rewrite lookup_insert_ne in Hl by done. by right.
Qed.

Lemma byId_loop_None (acc : gmap Z GameViz) base r :
  foldl (λ m b, <[appid b := b]> m) acc base !! r = None →
  acc !! r = None ∧ ∀ g, g ∈ base → appid g ≠ r.
Proof.
  revert acc. induction base as [|g base IH]; intros acc Hl.
  - split; [done|]. intros g Hg. by apply not_elem_of_nil in Hg.
  - cbn [foldl] in Hl. apply IH in Hl as [Hacc Hrest].
    apply lookup_insert_None in Hacc as [Hacc Hg]. split; [done|].
    intros g' Hg'. apply elem_of_cons in Hg' as [->|Hg']; [done|by apply Hrest].
Qed.

(** A title found in [byId] under [r] is one of the titles and has id [r]. *)
Lemma byId_Some base r t :
  byId base !! r = Some t → t ∈ base ∧ appid t = r.
Proof.
  intros Hl. apply byId_loop_lookup in Hl as [|Hl]; [done|].
  by rewrite lookup_empty in Hl.
Qed.

(** Nothing is found in [byId] under [r] only when no title has id [r]. *)
Lemma byId_None base r :
  byId base !! r = None → ∀ g, g ∈ base → appid g ≠ r.
Proof. intros Hl. by apply byId_loop_None in Hl as [_ ?]. Qed.

(** The entry stored under [r], in terms of the titles. *)
Lemma merged_entry_lookup base (mergeMap : MergeMap) r entry :
  (r, entry) ∈ merged_of base mergeMap →
  ∃ first,
    head (contributors r mergeMap base) = Some first ∧
    entry = with_hours (default first (byId base !! r))
                       (sum_hours (contributors r mergeMap base)).
Proof.
  intros Hin. unfold merged_of in Hin.
  apply merged_get_elem_of in Hin; [|apply merge_loop_NoDup, NoDup_nil_2].
  rewrite merge_loop_get in Hin.
  destruct (head (contributors r mergeMap base)) as [first|]; [|done].
  inversion Hin; subst. by exists first.
Qed.




(** X14.  When every root is among the titles and the forest has no cycle, the
    ids of the aggregated entries are roots: none has an outgoing edge. *)
Lemma aggregate_ids_without_edge base (mergeMap : MergeMap) :
  acyclic mergeMap →
  (∀ g, g ∈ base → is_Some (byId base !! findMergeRoot (appid g) mergeMap)) →
  ∀ entry, entry ∈ aggregate base mergeMap → mergeMap !! appid entry = None.
Proof.
  intros Hacyc Hroots entry Hin. unfold aggregate in Hin.
  apply list_elem_of_fmap in Hin as ([r e] & -> & Hin). cbn [snd].
  apply merged_entry_lookup in Hin as (first & Hhead & ->).
  assert (first ∈ contributors r mergeMap base) as Hfirst.
  { destruct (contributors r mergeMap base); inversion Hhead; subst. by left. }
  apply list_elem_of_filter in Hfirst as [Hr Hbase].
  destruct (Hroots first Hbase) as [title Htitle]. rewrite Hr in Htitle.
  rewrite Htitle. cbn [default from_option id with_hours appid].
  apply byId_Some in Htitle as [_ Hid]. rewrite Hid, <-Hr.
  by apply findMergeRoot_acyclic.
Qed.

End Aggregate.

(** ** Hiding and the visible feed *)

Section Visible.
Import Forest Aggregation Visibility Rank.

Lemma elem_of_toggleHide (x appid : Z) (hidden : gset Z) :
  x ∈ toggleHide appid hidden ↔
  (x = appid ∧ x ∉ hidden) ∨ (x ≠ appid ∧ x ∈ hidden).
Proof.
  unfold toggleHide. destruct (decide (appid ∈ hidden));
    destruct (decide (x = appid)); set_solver.
Qed.

(** C9.  One [toggleHide] puts an absent id into the hidden set and takes
    a present one out, leaving every other id as it was; two in a row give
    back the set they started from. *)
Theorem toggleHide_twice (appid : Z) (hidden : gset Z) :
  toggleHide appid (toggleHide appid hidden) = hidden ∧
  (appid ∈ toggleHide appid hidden ↔ appid ∉ hidden) ∧
  ∀ x, x ∈ toggleHide appid hidden ↔
       (x = appid ∧ x ∉ hidden) ∨ (x ≠ appid ∧ x ∈ hidden).
Proof.
  split; [|split].
  - apply set_eq. intros x. rewrite !elem_of_toggleHide.
    destruct (decide (x = appid)); destruct (decide (x ∈ hidden)); naive_solver.
  - rewrite elem_of_toggleHide. naive_solver.
  - intros x. apply elem_of_toggleHide.
Qed.

Lemma visibleGames_toggle_unlisted (games : list GameViz) (hidden : gset Z)
    (id : Z) :
  id ∉ (appid <$> games) →
  visibleGames games (toggleHide id hidden) = visibleGames games hidden.
Proof.
  intros Hid. unfold visibleGames.
  induction games as [|g games IH]; [done|].
  rewrite fmap_cons, not_elem_of_cons in Hid. destruct Hid as [Hg Hid].
  assert (appid g ∈ toggleHide id hidden ↔ appid g ∈ hidden) as Hiff.
  { rewrite elem_of_toggleHide. naive_solver. }
  destruct (decide (appid g ∈ hidden)) as [Hin|Hout].
  - rewrite !filter_cons_False by (intros Hn; apply Hn; tauto). by apply IH.
  - rewrite !filter_cons_True by tauto. f_equal. by apply IH.
Qed.

(** C10 (as amended).  Toggling an id that differs from the [appid] of
    every aggregated entry leaves the feed as it was.  When the forest has
    no cycle and the root of every title is itself among the titles, every
    id that has an outgoing edge is such an id. *)
Theorem toggle_unlisted_id_keeps_feed (base : list GameViz)
    (mergeMap : MergeMap) (hidden : gset Z) (id topN : Z) (showAll : bool) :
  (id ∉ (appid <$> aggregate base mergeMap) →
   filtered (visibleGames (aggregate base mergeMap) (toggleHide id hidden))
            topN showAll
   = filtered (visibleGames (aggregate base mergeMap) hidden) topN showAll) ∧
  (acyclic mergeMap →
   (∀ g, g ∈ base →
         is_Some (byId base !! findMergeRoot (appid g) mergeMap)) →
   is_Some (mergeMap !! id) →
   filtered (visibleGames (aggregate base mergeMap) (toggleHide id hidden))
            topN showAll
   = filtered (visibleGames (aggregate base mergeMap) hidden) topN showAll).
Proof.
  split.
  - intros Hid. by rewrite visibleGames_toggle_unlisted.
  - intros Hacyc Hroots [to Hedge].
    rewrite visibleGames_toggle_unlisted; [done|].
    intros Hin. apply list_elem_of_fmap in Hin as (entry & -> & Hin).
    unfold aggregate in Hin.
    apply list_elem_of_fmap in Hin as ([r e] & -> & Hin). cbn [snd] in Hedge.
    apply merged_entry_lookup in Hin as (first & Hhead & ->).
    assert (first ∈ contributors r mergeMap base) as Hfirst.
    { destruct (contributors r mergeMap base); inversion Hhead; subst.
      by left. }
    apply list_elem_of_filter in Hfirst as [Hr Hbase].
    destruct (Hroots first Hbase) as [title Htitle]. rewrite Hr in Htitle.
    rewrite Htitle in Hedge. cbn [default from_option id with_hours appid] in Hedge.
    apply byId_Some in Htitle as [_ Hid]. rewrite Hid, <-Hr in Hedge.
    by rewrite (findMergeRoot_acyclic _ _ Hacyc) in Hedge.
Qed.

Lemma toggle_unlisted_id_keeps_feed_witness :
  let base := normalize [mkRawGame 5 "Playtest" (Some 60);
                         mkRawGame 9 "Full game" (Some 600)] in
  let mergeMap : MergeMap := {[5 := 9]} in
  (5 ∉ (appid <$> aggregate base mergeMap)) ∧
  acyclic mergeMap ∧
  (∀ g, g ∈ base →
        is_Some (byId base !! findMergeRoot (appid g) mergeMap)) ∧
  is_Some (mergeMap !! 5) ∧
  filtered (visibleGames (aggregate base mergeMap) (toggleHide 5 ∅)) 100 false
  = filtered (visibleGames (aggregate base mergeMap) ∅) 100 false.
Proof.
  intros base mergeMap.
  assert (5 ∉ (appid <$> aggregate base mergeMap)) as Hid.
  { vm_compute. intros Hin. apply list_elem_of_singleton in Hin. discriminate. }
  assert (acyclic mergeMap) as Hacyc.
  { intros x n Hn Hloop. destruct n as [|n]; [lia|]. cbn [follow] in Hloop.
    subst mergeMap.
    destruct (decide (x = 5)) as [->|?]; simplify_map_eq.
    destruct n; simplify_map_eq. }
  assert (∀ g, g ∈ base →
               is_Some (byId base !! findMergeRoot (appid g) mergeMap)) as Hroots.
  { apply Forall_forall. repeat constructor; by eexists. }
  assert (is_Some (mergeMap !! 5)) as Hedge by (by eexists).
  split; [exact Hid|]. split; [exact Hacyc|]. split; [exact Hroots|].
  split; [exact Hedge|].
  exact (proj2 (toggle_unlisted_id_keeps_feed base mergeMap ∅ 5 100 false)
           Hacyc Hroots Hedge).
Defined.

(** C10 as stated fails: title 5 is merged into 9, and no title has id 9.
    The forest has no cycle, 5 has an outgoing edge and is not the root of
    any title, the only key of [merged] being 9; yet the entry carries the
    id 5, and toggling 5 empties the feed. *)
Lemma toggle_folded_id_changes_feed :
  let base := normalize [mkRawGame 5 "Playtest" (Some 60)] in
  let mergeMap : MergeMap := {[5 := 9]} in
  acyclic mergeMap ∧
  mergeMap !! 5 = Some 9 ∧
  (merged_of base mergeMap).*1 = [9] ∧
  appid <$> filtered (visibleGames (aggregate base mergeMap) ∅) 100 false = [5] ∧
  filtered (visibleGames (aggregate base mergeMap) (toggleHide 5 ∅)) 100 false = [] ∧
  filtered (visibleGames (aggregate base mergeMap) (toggleHide 5 ∅)) 100 false
  ≠ filtered (visibleGames (aggregate base mergeMap) ∅) 100 false.
Proof.
  intros base mergeMap. split; [|repeat split; try by vm_compute].
  - intros x n Hn Hloop. destruct n as [|n]; [lia|]. simpl in Hloop.
    subst mergeMap.
    destruct (decide (x = 5)) as [->|?]; simplify_map_eq.
    destruct n; simplify_map_eq.
Qed.

End Visible.

(** ** Ranking *)

Section Ranking.
Import Aggregation Visibility Rank.

Implicit Types (a b g : GameViz) (l visible : list GameViz).

Lemma by_hours_desc_le a b :
  (by_hours_desc a b ≤ 0)%Qc ↔ hours_desc a b.
Proof.
  unfold by_hours_desc, hours_desc.
  rewrite (Qcplus_le_mono_r _ _ (hours a)).
  by replace (hours b - hours a + hours a)%Qc with (hours b) by ring;
     rewrite Qcplus_0_l.
Qed.

#[local] Instance hours_desc_trans : Transitive hours_desc.
Proof. intros a b c Hab Hbc. unfold hours_desc in *. by etrans. Qed.

Lemma sort_insert_perm {A} (cmp : A → A → Qc) x (l : list A) :
  sort_insert cmp x l ≡ₚ x :: l.
Proof.
  induction l as [|y l IH]; cbn [sort_insert]; [done|].
  destruct (decide (cmp x y ≤ 0)%Qc); [done|].
  rewrite IH. apply Permutation_swap.
Qed.

(** Sorting rearranges, it neither drops nor repeats. *)
Lemma sort_perm {A} (cmp : A → A → Qc) (l : list A) : sort cmp l ≡ₚ l.
Proof.
  induction l as [|x l IH]; [done|].
  unfold sort in *. cbn [foldr]. by rewrite sort_insert_perm, IH.
Qed.

Lemma sort_insert_sorted g l :
  StronglySorted hours_desc l →
  StronglySorted hours_desc (sort_insert by_hours_desc g l).
Proof.
  induction l as [|y l IH]; intros Hs; cbn [sort_insert].
  - repeat constructor.
  - destruct (decide (by_hours_desc g y ≤ 0)%Qc) as [Hle|Hgt].
    + apply by_hours_desc_le in Hle. constructor; [done|].
      apply StronglySorted_cons in Hs as [Hall _].
      constructor; [done|]. eapply Forall_impl; [exact Hall|].
      intros z Hz. by etrans.
    + apply StronglySorted_cons in Hs as [Hall Hs].
      constructor; [by apply IH|].
      rewrite sort_insert_perm. constructor; [|done].
      rewrite by_hours_desc_le in Hgt. unfold hours_desc in *.
      apply Qclt_le_weak. by apply Qcnot_le_lt.
Qed.

(** The sorted array is in descending order of hours. *)
Lemma sort_sorted l : StronglySorted hours_desc (sort by_hours_desc l).
Proof.
  induction l as [|x l IH]; [constructor|].
  unfold sort in *. cbn [foldr]. by apply sort_insert_sorted.
Qed.

Lemma sort_insert_stable (h : Qc) g l :
  filter (λ x, hours x = h) (sort_insert by_hours_desc g l)
  = filter (λ x, hours x = h) (g :: l).
Proof.
  induction l as [|y l IH]; cbn [sort_insert]; [done|].
  destruct (decide (by_hours_desc g y ≤ 0)%Qc) as [Hle|Hgt]; [done|].
  assert (hours g ≠ hours y) as Hne.
  { intros Heq. apply Hgt. apply by_hours_desc_le. unfold hours_desc.
    by rewrite Heq. }
  rewrite (filter_cons _ y (sort_insert _ _ _)), IH, !filter_cons.
  repeat case_decide; congruence.
Qed.

(** The sort is stable: games with the same hours stay in the order they
    had. *)
Lemma sort_stable (h : Qc) l :
  filter (λ x, hours x = h) (sort by_hours_desc l)
  = filter (λ x, hours x = h) l.
Proof.
  induction l as [|g l IH]; [done|].
  unfold sort in *. cbn [foldr]. rewrite sort_insert_stable.
  by rewrite !filter_cons, IH.
Qed.

(** [filtered] is the sorted array or a prefix of it. *)
Lemma filtered_prefix visible topN showAll :
  filtered visible topN showAll `prefix_of` sort by_hours_desc visible.
Proof.
  unfold filtered, slice0. destruct showAll; [done|].
  destruct (decide (Z.max 5 topN < 0)); apply prefix_take.
Qed.

(** C4 (as amended).  The feed is in descending order of hours, and games
    with equal hours appear in it in the order they have in the visible
    list (no comparison of ids is made). *)
Theorem filtered_sorted_stable visible topN showAll :
  StronglySorted hours_desc (filtered visible topN showAll) ∧
  ∀ h : Qc,
    filter (λ g, hours g = h) (filtered visible topN showAll)
    `prefix_of` filter (λ g, hours g = h) visible.
Proof.
  destruct (filtered_prefix visible topN showAll) as [rest Hrest].
  split.
  - pose proof (sort_sorted visible) as Hs. rewrite Hrest in Hs.
    by apply StronglySorted_app_1_l in Hs.
  - intros h. rewrite <-(sort_stable h visible), Hrest, filter_app.
    by apply prefix_app_r.
Qed.

(** C4 as stated fails: two games with the same hours, the one with the
    larger id first in the list, stay in that order. *)
Lemma filtered_ties_not_by_id :
  let visible := visibleGames
                   (aggregate (normalize [mkRawGame 2 "B" (Some 60);
                                          mkRawGame 1 "A" (Some 60)]) ∅) ∅ in
  (∃ a b, filtered visible 100 false = [a; b] ∧
          appid a = 2 ∧ appid b = 1 ∧ hours a = hours b) ∧
  ¬ StronglySorted spec_order (filtered visible 100 false).
Proof.
  intros visible.
  assert (∃ a b, filtered visible 100 false = [a; b] ∧
                 appid a = 2 ∧ appid b = 1 ∧ hours a = hours b) as Hfeed.
  { eexists _, _. by vm_compute. }
  split; [exact Hfeed|].
  destruct Hfeed as (a & b & Heq & Ha & Hb & Hh).
  intros Hs. rewrite Heq in Hs. apply StronglySorted_cons in Hs as [Hall _].
  apply Forall_cons in Hall as [[Hlt|[_ Hid]] _].
  - rewrite Hh in Hlt. by apply Qclt_not_eq in Hlt.
  - lia.
Qed.

(** Scenario 4 of the design document: of A (900 min), C (120 min) and
    D (60 min), a limit of 2 is raised to 5 and all three are returned. *)
Example filtered_scenario4 :
  appid <$> filtered (normalize [mkRawGame 4 "D" (Some 60);
                                 mkRawGame 1 "A" (Some 900);
                                 mkRawGame 3 "C" (Some 120)]) 2 false
  = [1; 3; 4].
Proof. by vm_compute. Qed.

(** C5.  With a numeric limit the feed has [min (max 5 topN) |visible|]
    entries; with "show all" it has all of them. *)
Theorem filtered_length visible topN :
  Z.of_nat (length (filtered visible topN false))
  = Z.min (Z.max 5 topN) (Z.of_nat (length visible)) ∧
  length (filtered visible topN true) = length visible ∧
  filtered visible topN true ≡ₚ visible.
Proof.
  pose proof (Permutation_length (sort_perm by_hours_desc visible)) as Hlen.
  unfold filtered, slice0. split; [|split].
  - rewrite decide_False by lia. rewrite length_take, Hlen. lia.
  - done.
  - apply sort_perm.
Qed.

End Ranking.

(** ** Loading the persisted state *)

Section Loading.
Import Persistence.

Variable Number : json → number.

Lemma hiddenAppids_init_unreadable e :
  unreadable e → hiddenAppids_init Number e = ∅.
Proof.
  unfold hiddenAppids_init.
  destruct e as [| |raw [v|]]; cbn; try done.
  - by intros ->.
  - intros _. by destruct (String.eqb raw "").
Qed.

Lemma hiddenAppids_init_non_array e :
  parsed_non_array e → hiddenAppids_init Number e = ∅.
Proof.
  destruct e as [| |raw [v|]]; cbn; try done.
  intros Harr. unfold hiddenAppids_init. cbn.
  destruct (String.eqb raw ""); [done|]. cbn. by destruct v.
Qed.

Lemma mergeMap_init_unreadable e :
  unreadable e → mergeMap_init e = empty_object.
Proof.
  unfold mergeMap_init.
  destruct e as [| |raw [v|]]; cbn; try done.
  - by intros ->.
  - intros _. by destruct (String.eqb raw "").
Qed.

Lemma mergeMap_init_primitive e :
  parsed_primitive e → mergeMap_init e = empty_object.
Proof.
  destruct e as [| |raw [v|]]; cbn; try done.
  intros Hprim. unfold mergeMap_init. cbn.
  destruct (String.eqb raw ""); [done|]. cbn.
  destruct v as [|b|z|s|items|fields]; try done; cbn.
  - by destruct b.
  - by rewrite andb_false_r.
  - by rewrite andb_false_r.
Qed.

(** A parsed object or array is handed on as it is, whatever it holds. *)
Lemma mergeMap_init_object raw v :
  raw ≠ "" → is_primitive v = false →
  mergeMap_init (Text raw (Some v)) = v.
Proof.
  intros Hraw Hobj. unfold mergeMap_init. cbn.
  destruct (String.eqb_spec raw ""); [done|]. cbn.
  by destruct v.
Qed.

(** A parsed array is turned into a set element by element. *)
Lemma hiddenAppids_init_array raw items :
  raw ≠ "" →
  hiddenAppids_init Number (Text raw (Some (JArr items)))
  = list_to_set (Number <$> items).
Proof.
  intros Hraw. unfold hiddenAppids_init. cbn.
  by destruct (String.eqb_spec raw "").
Qed.

End Loading.




(** * Further properties *)

(** ** Walks in the forest *)

Section Walks.
Import Forest.

Implicit Types (map : MergeMap) (seen : gset Z).

Lemma follow_add map (a b : nat) x :
  follow map (a + b) x = follow map a x ≫= follow map b.
Proof.
  revert x. induction a as [|a IH]; intros x; [done|].
  cbn [Nat.add follow]. destruct (map !! x) as [y|]; [apply IH|done].
Qed.

Lemma follow_S_r map (n : nat) x :
  follow map (S n) x = follow map n x ≫= (map !!.).
Proof.
  replace (S n) with (n + 1)%nat by lia. rewrite follow_add.
  destruct (follow map n x) as [y|]; [|done]. cbn.
  by destruct (map !! y).
Qed.

Lemma follow_is_Some_le map (a b : nat) x :
  (a ≤ b)%nat → is_Some (follow map b x) → is_Some (follow map a x).
Proof.
  intros Hle. replace b with (a + (b - a))%nat by lia. rewrite follow_add.
  destruct (follow map a x); [by eexists|]. by intros [? ?].
Qed.

(** Going round a cycle any number of times. *)
Lemma follow_cycle_mul map (n c : nat) x :
  follow map n x = Some x → follow map (c * n) x = Some x.
Proof.
  intros Hn. induction c as [|c IH]; [done|].
  cbn [Nat.mul]. by rewrite follow_add, Hn.
Qed.

(** On a cycle, two visits of the same node are a whole number of turns
    apart. *)
Lemma follow_cycle_cancel map (n i s : nat) x y :
  follow map n x = Some x → (0 < n)%nat → (i ≤ s)%nat →
  follow map i x = Some y → follow map s x = Some y →
  follow map (s - i) x = Some x.
Proof.
  intros Hn Hpos Hle Hi Hs.
  pose proof (follow_cycle_mul map n i x Hn) as Hturns.
  assert (follow map (i * n - i) y = Some x) as Hback.
  { replace (i * n)%nat with (i + (i * n - i))%nat in Hturns by nia.
    rewrite follow_add, Hi in Hturns. exact Hturns. }
  assert (follow map (s + (i * n - i)) x = Some x) as Hlong.
  { by rewrite follow_add, Hs. }
  replace (s + (i * n - i))%nat with (i * n + (s - i))%nat in Hlong by nia.
  by rewrite follow_add, Hturns in Hlong.
Qed.

Lemma walk_state_step map start seen cur steps next :
  walk_state map start seen cur steps →
  map !! cur = Some next → cur ∉ seen →
  walk_state map start ({[cur]} ∪ seen) next (S steps).
Proof.
  intros (Hcur & Hseen & Hinj) Hnext Hfresh. split; [|split].
  - by rewrite follow_S_r, Hcur.
  - intros y. rewrite elem_of_union, elem_of_singleton, Hseen. split.
    + intros [->|(i & Hi & Hy)]; [exists steps|exists i]; (split; [lia|done]).
    + intros (i & Hi & Hy).
      destruct (decide (i = steps)) as [->|Hne].
      * left. rewrite Hcur in Hy. by inversion Hy.
      * right. exists i. split; [lia|done].
  - intros i j Hij Heq.
    destruct (decide (j = steps)) as [->|Hne].
    + apply Hfresh, Hseen. exists i. split; [lia|]. by rewrite Heq.
    + apply (Hinj i j); [lia|done].
Qed.

Lemma walk_state_exit start map :
  ∃ seen,
    walk_state map start seen (findMergeRoot start map)
               (findMergeRoot_steps start map) ∧
    (map !! findMergeRoot start map = None ∨ findMergeRoot start map ∈ seen).
Proof.
  pose proof (findMergeRoot_run_spec start map) as Hrun.
  eapply (findMergeRoot_loop_inv (walk_state map start)) in Hrun.
  - exact Hrun.
  - intros. by eapply walk_state_step.
  - split; [done|]. split.
    + intros y. split; [set_solver|]. intros (i & Hi & _). lia.
    + intros i j Hij. lia.
Qed.

End Walks.

(** ** More on [findMergeRoot], [addMerge] and [removeMerge] *)

Section ForestMore.
Import Forest.

Implicit Types (map : MergeMap) (st : MergeState).

(** X1.  [findMergeRoot] walks the chain of edges from [start] and stops at the
    first node that has no outgoing edge or was already met: the nodes
    walked over are all different, so on any map, cyclic or not, the walk is
    no longer than the number of edges. *)
Theorem findMergeRoot_first_stop (start : Z) map :
  (findMergeRoot_steps start map ≤ size map)%nat ∧
  follow map (findMergeRoot_steps start map) start
  = Some (findMergeRoot start map) ∧
  (∀ i j, (i < j < findMergeRoot_steps start map)%nat →
          follow map i start ≠ follow map j start) ∧
  (map !! findMergeRoot start map = None ∨
   ∃ i, (i < findMergeRoot_steps start map)%nat ∧
        follow map i start = Some (findMergeRoot start map)).
Proof.
  destruct (walk_state_exit start map) as (seen & (Hcur & Hseen & Hinj) & Hexit).
  split; [apply findMergeRoot_steps_bound|].
  split; [done|]. split; [done|].
  destruct Hexit as [Hnone|Hin]; [by left|right]. by apply Hseen.
Qed.

(** X2.  Resolving a root again changes nothing, on any map. *)
Theorem findMergeRoot_idempotent (appid : Z) map :
  findMergeRoot (findMergeRoot appid map) map = findMergeRoot appid map.
Proof.
  set (r := findMergeRoot appid map).
  destruct (walk_state_exit r map) as (seen & (Hcur & Hseen & Hinj) & Hexit).
  set (s := findMergeRoot_steps r map) in *.
  set (r' := findMergeRoot r map) in *.
  destruct (findMergeRoot_exit appid map) as [Hnone|(n & Hn & Hloop)];
    fold r in Hnone || fold r in Hloop.
  - destruct s as [|s]; [by inversion Hcur|].
    cbn [follow] in Hcur. by rewrite Hnone in Hcur.
  - assert (map !! r' ≠ None) as Hedge.
    { assert (is_Some (follow map (S s) r)) as [z Hz].
      { apply (follow_is_Some_le map _ (S s * n)); [nia|].
        rewrite follow_cycle_mul; by eauto. }
      rewrite follow_S_r, Hcur in Hz. cbn in Hz. by rewrite Hz. }
    destruct Hexit as [|Hin]; [done|].
    apply Hseen in Hin as (i & Hi & Hy).
    pose proof (follow_cycle_cancel map n i s r r' Hloop Hn
                  ltac:(lia) Hy Hcur) as Hback.
    destruct (decide (i = 0%nat)) as [->|Hne].
    + by inversion Hy.
    + destruct (Hinj 0%nat (s - i)%nat); [lia|]. by rewrite Hback.
Qed.

(** X3.  On a forest without cycle the walk ends on a node with no outgoing
    edge. *)
Theorem findMergeRoot_reaches_root (start : Z) map :
  acyclic map →
  map !! findMergeRoot start map = None ∧
  ∃ n, (n ≤ size map)%nat ∧ follow map n start = Some (findMergeRoot start map).
Proof.
  intros Hacyc. split; [by apply findMergeRoot_acyclic|].
  exists (findMergeRoot_steps start map).
  split; [apply findMergeRoot_steps_bound|].
  by destruct (walk_state_exit start map) as (seen & (Hcur & _) & _).
Qed.

Lemma findMergeRoot_reaches_root_witness :
  let map : MergeMap := {[2 := 1; 1 := 3]} in
  acyclic map ∧
  map !! findMergeRoot 2 map = None ∧
  ∃ n, (n ≤ size map)%nat ∧ follow map n 2 = Some (findMergeRoot 2 map).
Proof.
  intros map. split; [exact acyclic_scenario2|].
  exact (findMergeRoot_reaches_root 2 map acyclic_scenario2).
Defined.

(** *** Edges added and removed *)

Lemma follow_insert_reach map (from to : Z) (j : nat) y :
  follow (<[from := to]> map) j y = Some from →
  ∃ j', follow map j' y = Some from.
Proof.
  revert y. induction j as [|j IH]; intros y Hj.
  - by exists 0%nat.
  - destruct (decide (y = from)) as [->|Hne]; [by exists 0%nat|].
    cbn [follow] in Hj. rewrite lookup_insert_ne in Hj by done.
    destruct (map !! y) as [z|] eqn:Hy; [|done].
    destruct (IH z Hj) as [j' Hj']. exists (S j'). cbn [follow]. by rewrite Hy.
Qed.

Lemma follow_reach_insert map (from to : Z) (j : nat) y :
  follow map j y = Some from →
  ∃ j', follow (<[from := to]> map) j' y = Some from.
Proof.
  revert y. induction j as [|j IH]; intros y Hj.
  - by exists 0%nat.
  - destruct (decide (y = from)) as [->|Hne]; [by exists 0%nat|].
    cbn [follow] in Hj. destruct (map !! y) as [z|] eqn:Hy; [|done].
    destruct (IH z Hj) as [j' Hj']. exists (S j'). cbn [follow].
    by rewrite lookup_insert_ne, Hy.
Qed.

(** A walk in the forest with the new edge either avoids [from], and is a
    walk of the old forest, or passes through [from]. *)
Lemma follow_insert_split map (from to : Z) (n : nat) x z :
  follow (<[from := to]> map) n x = Some z →
  follow map n x = Some z ∨
  ∃ i, (i < n)%nat ∧ follow (<[from := to]> map) i x = Some from.
Proof.
  revert x. induction n as [|n IH]; intros x Hn; [by left|].
  destruct (decide (x = from)) as [->|Hne].
  - right. exists 0%nat. split; [lia|done].
  - cbn [follow] in Hn |- *. rewrite lookup_insert_ne in Hn by done.
    destruct (map !! x) as [y|] eqn:Hy; [|done].
    destruct (IH y Hn) as [Hold|(i & Hi & Hfrom)]; [by left|right].
    exists (S i). split; [lia|]. cbn [follow].
    by rewrite lookup_insert_ne, Hy.
Qed.

(** Putting the edge [from → to] into a forest without cycle gives a
    forest without cycle exactly when [from] cannot be reached from [to]. *)
Lemma insert_acyclic_iff map (from to : Z) :
  acyclic map →
  acyclic (<[from := to]> map) ↔ ∀ n, follow map n to ≠ Some from.
Proof.
  intros Hacyc. split.
  - intros Hnew n Hreach.
    destruct (follow_reach_insert map from to n to Hreach) as [j Hj].
    apply (Hnew from (S j)); [lia|]. cbn [follow]. by rewrite lookup_insert_eq.
  - intros Hfar x n Hn Hloop.
    destruct (follow_insert_split map from to n x x Hloop)
      as [Hold|(i & Hi & Hfrom)]; [by apply (Hacyc x n)|].
    assert (follow (<[from := to]> map) n from = Some from) as Hturn.
    { assert (follow (<[from := to]> map) (n + i) x = Some from) as Hni
        by (by rewrite follow_add, Hloop).
      replace (n + i)%nat with (i + n)%nat in Hni by lia.
      by rewrite follow_add, Hfrom in Hni. }
    destruct n as [|n]; [lia|]. cbn [follow] in Hturn.
    rewrite lookup_insert_eq in Hturn.
    destruct (follow_insert_reach map from to n to Hturn) as [j Hj].
    by apply (Hfar j).
Qed.

(** X5.  For two different games, [addMerge] leaves a forest without cycle
    without cycle exactly when [from] cannot be reached from [to] along the
    existing edges; when it can, the merge is stored all the same and closes
    a cycle. *)
Theorem addMerge_acyclic_iff st (from to : Z) :
  mergeFrom st = Some from → mergeTo st = Some to → from ≠ to →
  acyclic (mergeMap st) →
  acyclic (mergeMap (addMerge st)) ↔
  ∀ n, follow (mergeMap st) n to ≠ Some from.
Proof.
  intros Hfrom Hto Hne Hacyc.
  rewrite (addMerge_valid_commits st from to Hfrom Hto Hne). cbn [mergeMap].
  by apply insert_acyclic_iff.
Qed.

Lemma addMerge_acyclic_iff_witness :
  let st := mkMergeState {[2 := 1; 1 := 3]} (Some 3) (Some 2) "" in
  mergeFrom st = Some 3 ∧ mergeTo st = Some 2 ∧ 3 ≠ 2 ∧
  acyclic (mergeMap st) ∧
  (acyclic (mergeMap (addMerge st)) ↔
   ∀ n, follow (mergeMap st) n 2 ≠ Some 3).
Proof.
  intros st. split; [done|]. split; [done|]. split; [done|].
  split; [exact acyclic_scenario2|].
  exact (addMerge_acyclic_iff st 3 2 eq_refl eq_refl ltac:(done)
           acyclic_scenario2).
Defined.

(** X4.  For two different games "Merge" always stores the edge, in place of
    any edge the first game had, empties both selections and leaves the
    message as it is: the test for a loop rejects nothing. *)
Theorem addMerge_stores_edge st (from to : Z) :
  mergeFrom st = Some from → mergeTo st = Some to → from ≠ to →
  mergeMap (addMerge st) !! from = Some to ∧
  mergeFrom (addMerge st) = None ∧ mergeTo (addMerge st) = None ∧
  error (addMerge st) = error st.
Proof.
  intros Hfrom Hto Hne.
  rewrite (addMerge_valid_commits st from to Hfrom Hto Hne).
  cbn [mergeMap mergeFrom mergeTo error]. by rewrite lookup_insert_eq.
Qed.

Lemma addMerge_stores_edge_witness :
  let st := mkMergeState {[2 := 1]} (Some 2) (Some 5) "old" in
  mergeFrom st = Some 2 ∧ mergeTo st = Some 5 ∧ 2 ≠ 5 ∧
  mergeMap (addMerge st) !! 2 = Some 5 ∧
  mergeFrom (addMerge st) = None ∧ mergeTo (addMerge st) = None ∧
  error (addMerge st) = error st.
Proof.
  intros st. split; [done|]. split; [done|]. split; [done|].
  exact (addMerge_stores_edge st 2 5 eq_refl eq_refl ltac:(done)).
Defined.

(** X6.  [addMerge] never touches the edge of a game other than the one chosen
    as "from". *)
Theorem addMerge_other_edges st (k : Z) :
  mergeFrom st ≠ Some k →
  mergeMap (addMerge st) !! k = mergeMap st !! k.
Proof.
  intros Hk. unfold addMerge.
  destruct (mergeFrom st) as [from|]; [|done].
  destruct (mergeTo st) as [to|]; [|done].
  destruct (decide (from = to)); [done|].
  destruct (decide (_ = from)); [done|].
  cbn [mergeMap]. apply lookup_insert_ne. congruence.
Qed.

Lemma addMerge_other_edges_witness :
  let st := mkMergeState {[2 := 1]} (Some 3) (Some 2) "" in
  mergeFrom st ≠ Some 2 ∧
  mergeMap (addMerge st) !! 2 = mergeMap st !! 2.
Proof.
  intros st. assert (mergeFrom st ≠ Some 2) as Hk by done.
  split; [exact Hk|]. exact (addMerge_other_edges st 2 Hk).
Defined.

Lemma follow_delete map (k : Z) (n : nat) x y :
  follow (delete k map) n x = Some y → follow map n x = Some y.
Proof.
  revert x. induction n as [|n IH]; intros x Hn; [done|].
  cbn [follow] in Hn |- *.
  destruct (delete k map !! x) as [z|] eqn:Hz; [|done].
  apply lookup_delete_Some in Hz as [_ ->]. by apply IH.
Qed.

(** X7.  [removeMerge] takes away the edge of [fromAppid] and no other, and
    cannot create a cycle. *)
Theorem removeMerge_keeps_acyclic (fromAppid : Z) st :
  acyclic (mergeMap st) →
  acyclic (mergeMap (removeMerge fromAppid st)) ∧
  mergeMap (removeMerge fromAppid st) !! fromAppid = None ∧
  findMergeRoot fromAppid (mergeMap (removeMerge fromAppid st)) = fromAppid.
Proof.
  intros Hacyc. cbn [removeMerge mergeMap]. split; [|split].
  - intros x n Hn Hloop. apply (Hacyc x n Hn). by eapply follow_delete.
  - apply lookup_delete_eq.
  - unfold findMergeRoot, findMergeRoot_run, findMergeRoot_fuel.
    by rewrite findMergeRoot_loop_root by apply lookup_delete_eq.
Qed.

Lemma removeMerge_keeps_acyclic_witness :
  let st := mkMergeState {[2 := 1; 1 := 3]} None None "" in
  acyclic (mergeMap st) ∧
  acyclic (mergeMap (removeMerge 2 st)) ∧
  mergeMap (removeMerge 2 st) !! 2 = None ∧
  findMergeRoot 2 (mergeMap (removeMerge 2 st)) = 2.
Proof.
  intros st. split; [exact acyclic_scenario2|].
  exact (removeMerge_keeps_acyclic 2 st acyclic_scenario2).
Defined.

(** X8.  Merging a game that had no edge and then removing that merge gives back
    the forest as it was. *)
Theorem removeMerge_undoes_addMerge st (from to : Z) :
  mergeFrom st = Some from → mergeTo st = Some to → from ≠ to →
  mergeMap st !! from = None →
  mergeMap (removeMerge from (addMerge st)) = mergeMap st.
Proof.
  intros Hfrom Hto Hne Hfree.
  rewrite (addMerge_valid_commits st from to Hfrom Hto Hne).
  cbn [removeMerge mergeMap]. rewrite delete_insert_eq.
  by apply delete_id.
Qed.

Lemma removeMerge_undoes_addMerge_witness :
  let st := mkMergeState {[2 := 1]} (Some 3) (Some 2) "" in
  mergeFrom st = Some 3 ∧ mergeTo st = Some 2 ∧ 3 ≠ 2 ∧
  mergeMap st !! 3 = None ∧
  mergeMap (removeMerge 3 (addMerge st)) = mergeMap st.
Proof.
  intros st. split; [done|]. split; [done|]. split; [done|].
  assert (mergeMap st !! 3 = None) as Hfree by done.
  split; [exact Hfree|].
  exact (removeMerge_undoes_addMerge st 3 2 eq_refl eq_refl ltac:(done) Hfree).
Defined.

End ForestMore.

(** ** More on the aggregation effect *)

Section AggregateMore.
Import Forest Aggregation.

Implicit Types (g : GameViz) (base : list GameViz) (mergeMap : MergeMap).

Lemma to_viz_hours_nonneg (raw : RawGame) : (0 ≤ hours (to_viz raw))%Qc.
Proof. cbn. by destruct (decide _). Qed.

(** X9.  The titles kept by the effect have a non-zero id, a non-empty name and
    hours that are not negative, and they come in the order of the raw
    list. *)
Theorem normalize_valid (rawGames : list RawGame) :
  Forall (λ g, appid g ≠ 0 ∧ name g ≠ "" ∧ (0 ≤ hours g)%Qc)
         (normalize rawGames) ∧
  appid <$> normalize rawGames `sublist_of` raw_appid <$> rawGames.
Proof.
  unfold normalize. split.
  - apply Forall_fmap, Forall_forall. intros raw Hraw.
    apply list_elem_of_filter in Hraw as [Hkept _].
    unfold raw_kept in Hkept. apply andb_true_iff in Hkept as [Hid Hname].
    apply negb_true_iff in Hid, Hname.
    apply Z.eqb_neq in Hid. apply String.eqb_neq in Hname.
    split; [done|]. split; [done|]. apply to_viz_hours_nonneg.
  - rewrite <-list_fmap_compose.
    replace (appid ∘ to_viz) with raw_appid by done.
    apply fmap_sublist, sublist_filter.
Qed.

Lemma sum_hours_nonneg (l : list GameViz) :
  Forall (λ g, (0 ≤ hours g)%Qc) l → (0 ≤ sum_hours l)%Qc.
Proof.
  induction 1 as [|g l Hg _ IH]; [done|].
  rewrite sum_hours_cons.
  replace 0%Qc with (0 + 0)%Qc by ring. by apply Qcplus_le_compat.
Qed.

(** X10.  No aggregated entry has negative hours, whatever the raw list and the
    forest. *)
Theorem aggregate_hours_nonneg (rawGames : list RawGame) mergeMap :
  Forall (λ g, (0 ≤ hours g)%Qc) (aggregate (normalize rawGames) mergeMap).
Proof.
  apply Forall_forall. intros entry Hin. unfold aggregate in Hin.
  apply list_elem_of_fmap in Hin as ([r e] & -> & Hin). cbn [snd].
  apply merged_entry_lookup in Hin as (first & _ & ->). cbn [with_hours hours].
  apply sum_hours_nonneg, Forall_forall. intros g Hg.
  apply list_elem_of_filter in Hg as [_ Hg]. unfold normalize in Hg.
  apply list_elem_of_fmap in Hg as (raw & -> & _).
  apply to_viz_hours_nonneg.
Qed.

(** X11.  [merged] has one entry for every root that some title resolves to, and
    no other; there are never more entries than titles. *)
Theorem merged_keys base mergeMap :
  NoDup (merged_of base mergeMap).*1 ∧
  (∀ r, r ∈ (merged_of base mergeMap).*1 ↔
        ∃ g, g ∈ base ∧ findMergeRoot (appid g) mergeMap = r) ∧
  (length (aggregate base mergeMap) ≤ length base)%nat.
Proof.
  assert (NoDup (merged_of base mergeMap).*1) as Hnd
    by apply merge_loop_NoDup, NoDup_nil_2.
  assert (∀ r, r ∈ (merged_of base mergeMap).*1 ↔
               ∃ g, g ∈ base ∧ findMergeRoot (appid g) mergeMap = r) as Hkeys.
  { intros r. unfold merged_of.
    pose proof (merge_loop_get mergeMap (byId base) base r) as Hget.
    split.
    - intros Hin.
      destruct (contributors r mergeMap base) as [|g rest] eqn:Hc.
      + apply merged_get_None_keys in Hget. done.
      + exists g.
        assert (g ∈ contributors r mergeMap base) as Hg by (rewrite Hc; by left).
        apply list_elem_of_filter in Hg as [? ?]. done.
    - intros (g & Hg & Hr).
      assert (g ∈ contributors r mergeMap base) as Hc
        by (apply list_elem_of_filter; done).
      destruct (decide (r ∈ (foldl (merge_step mergeMap (byId base)) [] base).*1))
        as [|Hout]; [done|].
      apply merged_get_None_keys in Hout. rewrite Hout in Hget.
      destruct (contributors r mergeMap base); [|done].
      by apply not_elem_of_nil in Hc. }
  split; [done|]. split; [done|].
  unfold aggregate. rewrite length_fmap, <-(length_fmap fst).
  rewrite <-(length_fmap (λ g, findMergeRoot (appid g) mergeMap) base).
  apply submseteq_length, NoDup_submseteq; [done|].
  intros r Hr. apply Hkeys in Hr as (g & Hg & <-).
  apply list_elem_of_fmap. by exists g.
Qed.

Lemma elem_of_first_occurrences (l : list Z) (x : Z) :
  x ∈ first_occurrences l ↔ x ∈ l.
Proof.
  induction l as [|y l IH]; [done|].
  cbn [first_occurrences].
  rewrite !elem_of_cons, list_elem_of_filter, IH.
  destruct (decide (x = y)); naive_solver.
Qed.

Lemma first_occurrences_snoc (l : list Z) (x : Z) :
  first_occurrences (l ++ [x])
  = if decide (x ∈ l) then first_occurrences l
    else first_occurrences l ++ [x].
Proof.
  induction l as [|y l IH]; [done|].
  rewrite <-app_comm_cons. cbn [first_occurrences]. rewrite IH.
  destruct (decide (x = y)) as [->|Hne].
  - rewrite (decide_True (P := y ∈ y :: l)) by (by left).
    destruct (decide (y ∈ l)); [done|].
    rewrite filter_app, filter_cons_False by (by intros ?).
    by rewrite filter_nil, app_nil_r.
  - destruct (decide (x ∈ l)) as [Hin|Hout].
    + by rewrite decide_True by (by right).
    + rewrite decide_False by (by intros [?|?]%elem_of_cons).
      by rewrite filter_app, filter_cons_True.
Qed.

(** X12.  The entries come in the order in which the titles first reach their
    roots: the first entry is for the root of the first title, the next for
    the first root different from it, and so on. *)
Theorem merged_order base mergeMap :
  (merged_of base mergeMap).*1
  = first_occurrences ((λ g, findMergeRoot (appid g) mergeMap) <$> base).
Proof.
  unfold merged_of. generalize (byId base). intros ids.
  induction base as [|g base IH] using rev_ind; [done|].
  rewrite foldl_app, fmap_app, list_fmap_singleton, first_occurrences_snoc.
  cbn [foldl].
  set (M := foldl (merge_step mergeMap ids) [] base) in *.
  unfold merge_step.
  destruct (merged_get _ M) as [existing|] eqn:Hget.
  - rewrite merged_add_hours_keys, decide_True; [done|].
    apply elem_of_first_occurrences. rewrite <-IH.
    destruct (decide (findMergeRoot (appid g) mergeMap ∈ M.*1)) as [|Hout];
      [done|].
    apply merged_get_None_keys in Hout. congruence.
  - apply merged_get_None_keys in Hget.
    rewrite decide_False.
    + by rewrite fmap_app, IH.
    + by rewrite <-elem_of_first_occurrences, <-IH.
Qed.

Lemma byId_loop_notin (acc : gmap Z GameViz) base (k : Z) :
  k ∉ appid <$> base →
  foldl (λ m b, <[appid b := b]> m) acc base !! k = acc !! k.
Proof.
  revert acc. induction base as [|b base IH]; intros acc Hk; [done|].
  rewrite fmap_cons, not_elem_of_cons in Hk. destruct Hk as [Hb Hk].
  cbn [foldl]. rewrite IH by done. by apply lookup_insert_ne.
Qed.

(** With distinct ids, every title is found in [byId] under its id. *)
Lemma byId_lookup_NoDup base g :
  NoDup (appid <$> base) → g ∈ base → byId base !! appid g = Some g.
Proof.
  unfold byId. generalize (∅ : gmap Z GameViz).
  induction base as [|b base IH]; intros acc Hnd Hg.
  - by apply not_elem_of_nil in Hg.
  - rewrite fmap_cons in Hnd. apply NoDup_cons in Hnd as [Hb Hnd].
    cbn [foldl]. apply elem_of_cons in Hg as [->|Hg].
    + rewrite byId_loop_notin by done. apply lookup_insert_eq.
    + by apply IH.
Qed.

Lemma merge_loop_untouched mergeMap (ids : gmap Z GameViz) base
    (merged : Merged) :
  (∀ g, g ∈ base →
        findMergeRoot (appid g) mergeMap = appid g ∧ ids !! appid g = Some g) →
  NoDup (merged.*1 ++ (appid <$> base)) →
  foldl (merge_step mergeMap ids) merged base
  = merged ++ ((λ g, (appid g, g)) <$> base).
Proof.
  revert merged. induction base as [|g base IH]; intros merged Hbase Hnd.
  - by rewrite app_nil_r.
  - cbn [foldl]. destruct (Hbase g) as [Hroot Hid]; [by left|].
    assert (merge_step mergeMap ids merged g = merged ++ [(appid g, g)]) as ->.
    { unfold merge_step. rewrite Hroot, Hid.
      assert (merged_get (appid g) merged = None) as ->.
      { apply merged_get_None_keys. apply NoDup_app in Hnd as (_ & Hdisj & _).
        intros Hin. apply (Hdisj _ Hin). rewrite fmap_cons. by left. }
      cbn [default from_option id]. by destruct g. }
    rewrite IH.
    + by rewrite <-app_assoc.
    + intros g' Hg'. apply Hbase. by right.
    + rewrite fmap_app, <-app_assoc. exact Hnd.
Qed.

(** X13.  When the titles have distinct ids and none of them has an outgoing
    edge, the aggregation gives back the titles as they are, in their
    order: merges between games that are not loaded change nothing. *)
Theorem aggregate_untouched base mergeMap :
  NoDup (appid <$> base) →
  (∀ g, g ∈ base → mergeMap !! appid g = None) →
  aggregate base mergeMap = base.
Proof.
  intros Hnd Hfree. unfold aggregate, merged_of.
  rewrite merge_loop_untouched.
  - rewrite app_nil_l, <-list_fmap_compose. apply list_fmap_id.
  - intros g Hg. split; [|by apply byId_lookup_NoDup].
    unfold findMergeRoot, findMergeRoot_run, findMergeRoot_fuel.
    by rewrite findMergeRoot_loop_root by (by apply Hfree).
  - by rewrite app_nil_l.
Qed.

Lemma aggregate_untouched_witness :
  let base := normalize [mkRawGame 5 "Playtest" (Some 60);
                         mkRawGame 9 "Full game" (Some 600)] in
  let mergeMap : MergeMap := {[7 := 9]} in
  NoDup (appid <$> base) ∧
  (∀ g, g ∈ base → mergeMap !! appid g = None) ∧
  aggregate base mergeMap = base.
Proof.
  intros base mergeMap.
  assert (NoDup (appid <$> base)) as Hnd.
  { apply (bool_decide_unpack (NoDup (appid <$> base))). by vm_compute. }
  assert (∀ g, g ∈ base → mergeMap !! appid g = None) as Hfree.
  { apply Forall_forall. repeat constructor. }
  split; [exact Hnd|]. split; [exact Hfree|].
  exact (aggregate_untouched base mergeMap Hnd Hfree).
Defined.

Lemma aggregate_ids_without_edge_witness :
  let base := normalize [mkRawGame 5 "Playtest" (Some 60);
                         mkRawGame 9 "Full game" (Some 600)] in
  let mergeMap : MergeMap := {[5 := 9]} in
  acyclic mergeMap ∧
  (∀ g, g ∈ base → is_Some (byId base !! findMergeRoot (appid g) mergeMap)) ∧
  ∀ entry, entry ∈ aggregate base mergeMap → mergeMap !! appid entry = None.
Proof.
  intros base mergeMap.
  assert (acyclic mergeMap) as Hacyc.
  { intros x n Hn Hloop. destruct n as [|n]; [lia|]. cbn [follow] in Hloop.
    subst mergeMap.
    destruct (decide (x = 5)) as [->|?]; simplify_map_eq.
    destruct n; simplify_map_eq. }
  assert (∀ g, g ∈ base →
               is_Some (byId base !! findMergeRoot (appid g) mergeMap)) as Hroots.
  { apply Forall_forall. repeat constructor; by eexists. }
  split; [exact Hacyc|]. split; [exact Hroots|].
  exact (aggregate_ids_without_edge base mergeMap Hacyc Hroots).
Defined.

End AggregateMore.

(** ** More on hiding *)

Section VisibleMore.
Import Aggregation Visibility.

Implicit Types (games : list GameViz) (hidden : gset Z).

(** X15.  Every game is in exactly one of the two lists, the visible one and the
    hidden one, and both keep the order of [games]. *)
Theorem visible_hidden_partition games hidden :
  hiddenGamesList games hidden ++ visibleGames games hidden ≡ₚ games ∧
  hiddenGamesList games hidden `sublist_of` games ∧
  visibleGames games hidden `sublist_of` games ∧
  ∀ g, ¬ (g ∈ hiddenGamesList games hidden ∧ g ∈ visibleGames games hidden).
Proof.
  unfold hiddenGamesList, visibleGames. split; [|split; [|split]].
  - apply filter_app_complement.
  - apply sublist_filter.
  - apply sublist_filter.
  - intros g [Hh Hv]. apply list_elem_of_filter in Hh as [Hh _].
    apply list_elem_of_filter in Hv as [Hv _]. done.
Qed.

(** X16.  The order of two toggles does not matter. *)
Theorem toggleHide_comm (a b : Z) hidden :
  toggleHide a (toggleHide b hidden) = toggleHide b (toggleHide a hidden).
Proof.
  apply set_eq. intros x. rewrite !elem_of_toggleHide.
  destruct (decide (x = a)); destruct (decide (x = b));
    destruct (decide (x ∈ hidden)); naive_solver.
Qed.

(** X17.  After a toggle of [id], a game is visible when it carries [id] and
    [id] was hidden before, or carries another id and was visible before. *)
Theorem visibleGames_toggle games hidden (id : Z) g :
  g ∈ visibleGames games (toggleHide id hidden) ↔
  g ∈ games ∧
  ((appid g = id ∧ id ∈ hidden) ∨ (appid g ≠ id ∧ appid g ∉ hidden)).
Proof.
  unfold visibleGames. rewrite list_elem_of_filter, elem_of_toggleHide.
  destruct (decide (appid g = id)) as [->|Hne];
    destruct (decide (id ∈ hidden)); destruct (decide (appid g ∈ hidden));
    naive_solver.
Qed.

(** [clearHidden] makes every game visible again. *)
Theorem visibleGames_clearHidden games :
  visibleGames games clearHidden = games ∧
  hiddenGamesList games clearHidden = [].
Proof.
  unfold visibleGames, hiddenGamesList, clearHidden.
  induction games as [|g games [IHv IHh]]; [done|].
  rewrite filter_cons_True by set_solver.
  rewrite filter_cons_False by set_solver.
  by rewrite IHv.
Qed.

End VisibleMore.

(** ** More on the ranking *)

Section RankingMore.
Import Aggregation Rank.

Implicit Types (g : GameViz) (l visible : list GameViz).

(** Sorting an array that is already in descending order of hours gives
    the same array. *)
Lemma sort_sorted_id l :
  StronglySorted hours_desc l → sort by_hours_desc l = l.
Proof.
  induction 1 as [|g l Hs IH Hall]; [done|].
  unfold sort in *. cbn [foldr]. rewrite IH.
  destruct l as [|y l]; [done|]. cbn [sort_insert].
  apply Forall_cons in Hall as [Hy _].
  by rewrite decide_True by (by apply by_hours_desc_le).
Qed.

(** X18.  Ranking the feed again, with the same settings, gives the same feed. *)
Theorem filtered_idempotent visible (topN : Z) (showAll : bool) :
  filtered (filtered visible topN showAll) topN showAll
  = filtered visible topN showAll.
Proof.
  assert (StronglySorted hours_desc (filtered visible topN showAll)) as Hs.
  { destruct (filtered_prefix visible topN showAll) as [rest Hrest].
    pose proof (sort_sorted visible) as Hsorted. rewrite Hrest in Hsorted.
    by apply StronglySorted_app_1_l in Hsorted. }
  unfold filtered at 1. rewrite (sort_sorted_id _ Hs).
  destruct showAll; [done|].
  unfold filtered, slice0. rewrite !decide_False by lia. apply take_idemp.
Qed.

(** X19.  The feed keeps the games with the most hours: it is made of visible
    games only, and no game left out has more hours than a game shown. *)
Theorem filtered_keeps_top visible (topN : Z) (showAll : bool) :
  ∃ rest,
    filtered visible topN showAll ++ rest ≡ₚ visible ∧
    ∀ shown left_out,
      shown ∈ filtered visible topN showAll → left_out ∈ rest →
      (hours left_out ≤ hours shown)%Qc.
Proof.
  destruct (filtered_prefix visible topN showAll) as [rest Hrest].
  exists rest. split.
  - by rewrite <-Hrest, sort_perm.
  - intros shown left_out Hshown Hleft.
    pose proof (sort_sorted visible) as Hsorted. rewrite Hrest in Hsorted.
    by eapply (StronglySorted_app_1_elem_of hours_desc).
Qed.

End RankingMore.

(** ** The dropdown of the merge form *)

Section SearchMore.
Import Forest Aggregation.

Variable trim : string → string.
Variable toLowerCase : string → string.
Variable localeCompare : string → string → Qc.

Lemma includes_empty (s : string) : Search.includes s "" = true.
Proof. by destruct s. Qed.

Lemma slice0_60 {A} (l : list A) : Rank.slice0 l 60 = take 60 l.
Proof. done. Qed.

(** What holds of every item the dropdown shows. *)
Lemma search_filtered_elem (items : list GameViz) (query : string)
    (excludeIds : option (gset Z)) g :
  g ∈ Search.filtered trim toLowerCase items query excludeIds →
  g ∈ items ∧
  Search.includes (toLowerCase (name g)) (toLowerCase (trim query)) = true ∧
  match excludeIds with
  | Some ids => appid g ∉ ids
  | None => True
  end.
Proof.
  unfold Search.filtered.
  set (q := toLowerCase (trim query)).
  set (list := match excludeIds with
               | Some ids => if decide (size ids = 0%nat) then items
                             else filter (λ i, appid i ∉ ids) items
               | None => items
               end).
  assert (g ∈ list → g ∈ items ∧ match excludeIds with
                                  | Some ids => appid g ∉ ids
                                  | None => True
                                  end) as Hlist.
  { subst list. destruct excludeIds as [ids|]; [|done].
    destruct (decide (size ids = 0%nat)) as [Hempty|].
    - apply size_empty_inv in Hempty. intros Hg. split; [done|].
      rewrite Hempty. set_solver.
    - intros Hg. by apply list_elem_of_filter in Hg as [? ?]. }
  destruct (String.eqb_spec q "") as [Hq|Hq]; rewrite slice0_60; intros Hg;
    apply elem_of_take in Hg as (i & Hg & _);
    apply list_elem_of_lookup_2 in Hg.
  - destruct (Hlist Hg) as [? ?]. split; [done|]. split; [|done].
    rewrite Hq. apply includes_empty.
  - apply list_elem_of_filter in Hg as [Hname Hg].
    destruct (Hlist Hg) as [? ?]. done.
Qed.

(** X20.  The dropdown shows at most 60 items, in the order of [items]; none of
    them has an excluded id, and the name of each contains the query (both
    in lower case, the query trimmed). *)
Theorem search_filtered_spec (items : list GameViz) (query : string)
    (excludeIds : option (gset Z)) :
  (length (Search.filtered trim toLowerCase items query excludeIds) ≤ 60)%nat ∧
  Search.filtered trim toLowerCase items query excludeIds `sublist_of` items ∧
  Forall (λ g, Search.includes (toLowerCase (name g))
                               (toLowerCase (trim query)) = true ∧
               match excludeIds with
               | Some ids => appid g ∉ ids
               | None => True
               end)
         (Search.filtered trim toLowerCase items query excludeIds).
Proof.
  split; [|split].
  - unfold Search.filtered.
    destruct (String.eqb _ ""); rewrite slice0_60, length_take; lia.
  - unfold Search.filtered.
    assert (∀ l : list GameViz, l `sublist_of` items →
                                take 60 l `sublist_of` items) as Htake
      by (intros l Hl; by etrans; [apply sublist_take|]).
    assert (match excludeIds with
            | Some ids => if decide (size ids = 0%nat) then items
                          else filter (λ i, appid i ∉ ids) items
            | None => items
            end `sublist_of` items) as Hsub.
    { destruct excludeIds as [ids|]; [|done].
      destruct (decide (size ids = 0%nat)); [done|apply sublist_filter]. }
    destruct (String.eqb _ ""); rewrite slice0_60; apply Htake; [done|].
    by etrans; [apply sublist_filter|].
  - apply Forall_forall. intros g Hg.
    by apply search_filtered_elem in Hg as (_ & ? & ?).
Qed.

(** X21.  A game offered by the "Into" dropdown is one of the loaded games and is
    not the game chosen as "From"; so when "From" is chosen first, "Merge"
    always stores the edge to the game picked in "Into". *)
Theorem into_option_is_merged (unmergedGames : list GameViz) (query : string)
    (st : MergeState) (from : Z) g :
  mergeFrom st = Some from →
  g ∈ Search.into_options trim toLowerCase localeCompare
        unmergedGames query (mergeFrom st) →
  g ∈ unmergedGames ∧ appid g ≠ from ∧
  mergeMap (addMerge (setMergeTo (Some (appid g)) st)) !! from
  = Some (appid g).
Proof.
  intros Hfrom Hg. rewrite Hfrom in Hg. unfold Search.into_options in Hg.
  apply search_filtered_elem in Hg as (Hin & _ & Hex).
  assert (appid g ≠ from) as Hne by set_solver.
  split; [|split; [done|]].
  - unfold Search.allForMerge in Hin. by rewrite sort_perm in Hin.
  - rewrite (addMerge_valid_commits _ from (appid g)); [|done|done|done].
    cbn [mergeMap]. apply lookup_insert_eq.
Qed.

End SearchMore.

Lemma into_option_is_merged_witness :
  let unmerged := Aggregation.normalize
                    [Aggregation.mkRawGame 5 "Playtest" (Some 60);
                     Aggregation.mkRawGame 9 "Full game" (Some 600)] in
  let st := Forest.mkMergeState ∅ (Some 5) None "" in
  let g := Aggregation.to_viz (Aggregation.mkRawGame 9 "Full game" (Some 600)) in
  Forest.mergeFrom st = Some 5 ∧
  g ∈ Search.into_options id id (λ _ _, 0%Qc) unmerged "Full"
        (Forest.mergeFrom st) ∧
  g ∈ unmerged ∧ Aggregation.appid g ≠ 5 ∧
  Forest.mergeMap
    (Forest.addMerge (Forest.setMergeTo (Some (Aggregation.appid g)) st)) !! 5
  = Some (Aggregation.appid g).
Proof.
  intros unmerged st g.
  assert (g ∈ Search.into_options id id (λ _ _, 0%Qc) unmerged "Full"
                (Forest.mergeFrom st)) as Hg.
  { vm_compute. apply list_elem_of_here. }
  split; [done|]. split; [exact Hg|].
  exact (into_option_is_merged id id (λ _ _, 0%Qc) unmerged "Full" st 5 g
           eq_refl Hg).
Defined.

(** ** Loading the games *)

Section Loading.
Import Aggregation.

Variable trim : string → string.

Lemma run_effect_games (mergeMap : Forest.MergeMap) (st : Loader.LoadState) :
  Loader.games st = [] →
  Loader.games (Loader.run_effect mergeMap st)
  = aggregate (normalize (Loader.rawGames st)) mergeMap.
Proof.
  intros Hgames. unfold Loader.run_effect. cbn [Loader.games].
  unfold aggregation_effect. rewrite Hgames.
  by destruct (Loader.rawGames st).
Qed.



End Loading.


(** ** The batch route of the backend *)

Section BatchMore.

Variable store : Z → option Backend.StoreData.

Lemma add_details_lookup (l : list Z) (a : Z) :
  foldr (Backend.add_details store) ∅ l !! a
  = if decide (a ∈ l)
    then (λ d, Backend.mkAppDetails (Backend.data_name d)
                 (default [] (Backend.data_genres d))
                 (Backend.data_header_image d)) <$> store a
    else None.
Proof.
  induction l as [|x l IH]; [done|].
  cbn [foldr]. unfold Backend.add_details at 1.
  destruct (decide (a = x)) as [->|Hne].
  - rewrite decide_True by (by left).
    destruct (store x) as [d|] eqn:Hx; [by rewrite lookup_insert_eq|].
    rewrite IH. by destruct (decide (x ∈ l)).
  - assert (foldr (Backend.add_details store) ∅ l !! a
            = match store x with
              | Some d => <[x := Backend.mkAppDetails (Backend.data_name d)
                                   (default [] (Backend.data_genres d))
                                   (Backend.data_header_image d)]>
                            (foldr (Backend.add_details store) ∅ l)
              | None => foldr (Backend.add_details store) ∅ l
              end !! a) as <-.
    { destruct (store x); [by rewrite lookup_insert_ne|done]. }
    rewrite IH. destruct (decide (a ∈ l)) as [Hin|Hout].
    + by rewrite decide_True by (by right).
    + rewrite decide_False; [done|]. by intros [?|?]%elem_of_cons.
Qed.

Lemma add_details_size (l : list Z) :
  (size (foldr (Backend.add_details store) ∅ l) ≤ length l)%nat.
Proof.
  induction l as [|x l IH]; [done|].
  cbn [foldr length]. unfold Backend.add_details at 1.
  destruct (store x) as [d|]; [|lia].
  destruct (foldr (Backend.add_details store) ∅ l !! x) eqn:Hx.
  - rewrite map_size_insert_Some by eauto. lia.
  - rewrite map_size_insert_None by done. lia.
Qed.

(** X26.  The batch route refuses a body without a non-empty array of ids.
    Otherwise it answers with at most 250 entries, one for every id among
    the first 250 for which the store returned data, built from that data,
    and none for any other id. *)
Theorem appdetails_batch_spec (appids : option (list Z)) :
  match Backend.appdetails_batch store appids with
  | Backend.BadRequest => appids = None ∨ appids = Some []
  | Backend.Success out =>
      ∃ l, appids = Some l ∧ l ≠ [] ∧
           (size out ≤ 250)%nat ∧
           ∀ a, out !! a
                = if decide (a ∈ take 250 l)
                  then (λ d, Backend.mkAppDetails (Backend.data_name d)
                               (default [] (Backend.data_genres d))
                               (Backend.data_header_image d)) <$> store a
                  else None
  end.
Proof.
  destruct appids as [[|x l]|]; cbn [Backend.appdetails_batch]; auto.
  exists (x :: l). split; [done|]. split; [done|].
  change (Rank.slice0 (x :: l) 250) with (take 250 (x :: l)). split.
  - etrans; [apply add_details_size|]. rewrite length_take. lia.
  - intros a. apply add_details_lookup.
Qed.

End BatchMore.

(** ** The aggregation effect on doubles *)

Section Doubles.
Import Forest Binary64.
Import PrimFloat.

Implicit Types (merged : Merged) (g : GameViz) (base : list GameViz).

Lemma merged64_get_None_keys root merged :
  merged_get root merged = None ↔ root ∉ merged.*1.
Proof.
  induction merged as [|[k v] merged IH]; cbn [merged_get].
  - split; [set_solver|done].
  - rewrite fmap_cons, not_elem_of_cons. cbn [fst].
    destruct (decide (k = root)) as [->|Hne]; [naive_solver|].
    rewrite IH. naive_solver.
Qed.

Lemma merged64_get_snoc root merged k v :
  merged_get root (merged ++ [(k, v)])
  = match merged_get root merged with
    | Some e => Some e
    | None => if decide (k = root) then Some v else None
    end.
Proof.
  induction merged as [|[k' v'] merged IH]; [done|].
  rewrite <-app_comm_cons. cbn [merged_get].
  by destruct (decide (k' = root)).
Qed.

Lemma merged64_add_hours_keys root h merged :
  (merged_add_hours root h merged).*1 = merged.*1.
Proof.
  induction merged as [|[k v] merged IH]; [done|].
  cbn [merged_add_hours].
  destruct (decide (k = root)); rewrite !fmap_cons; [done|]. by rewrite IH.
Qed.

Lemma merged64_get_add_hours root h k merged :
  merged_get k (merged_add_hours root h merged)
  = if decide (k = root)
    then (λ v, with_hours v (PrimFloat.add (hours v) h)) <$> merged_get k merged
    else merged_get k merged.
Proof.
  induction merged as [|[k' v] merged IH]; cbn [merged_add_hours merged_get].
  - by destruct (decide (k = root)).
  - destruct (decide (k' = root)) as [->|Hne]; cbn [merged_get].
    + destruct (decide (root = k)) as [<-|Hk].
      * by rewrite decide_True.
      * by rewrite decide_False.
    + destruct (decide (k' = k)) as [->|Hk]; [|done].
      by rewrite decide_False.
Qed.

Lemma merge64_loop_NoDup (mergeMap : MergeMap) ids base merged :
  NoDup merged.*1 →
  NoDup (foldl (merge_step mergeMap ids) merged base).*1.
Proof.
  revert merged. induction base as [|g base IH]; intros merged Hnd; [done|].
  cbn [foldl]. apply IH. unfold merge_step.
  destruct (merged_get _ merged) as [existing|] eqn:Hget.
  - by rewrite merged64_add_hours_keys.
  - rewrite fmap_app. apply NoDup_app. split; [done|].
    apply merged64_get_None_keys in Hget.
    split; [|apply NoDup_singleton].
    intros x Hx Hx'. apply list_elem_of_singleton in Hx'. by subst.
Qed.

Lemma add_hours_snoc (h : float) (rest : list GameViz) g :
  add_hours h (rest ++ [g]) = PrimFloat.add (add_hours h rest) (hours g).
Proof. unfold add_hours. by rewrite foldl_app. Qed.



End Doubles.
